(** * Verification of [tree-init/tree_builder.py]

    [build_conversation_graph] reads two JSON files (annotations and
    utterances), selects the annotated utterances and their direct parents,
    builds a [networkx.DiGraph] over them and writes the attack / support /
    neutral label of every annotation on the reply edge that enters its
    utterance.

    The embedding follows the function phase by phase.  Decoded JSON is an
    inductive type, Python dictionaries whose order is never observed are
    [gmap]s, Python sets are [gset]s, the insertion-ordered dictionary
    [annotations_for_graph] is an association list, and every [for] loop is a
    left fold whose state is the tuple of variables the loop updates.  Text is
    held as the UTF-8 bytes of the Python string. *)

From Stdlib Require Import Ascii String.
From stdpp Require Import base option list sets gmap strings pretty relations.

Open Scope string_scope.

Set Warnings "-register-all,-clear-no-such-hyp".

(** ** Decoded JSON *)

(** What [json.load] gives back.  A number with a fraction or an exponent is
    a Python float; the program never computes with one, it only prints it
    with [str], so the model carries a float as the text [str] gives. *)
Inductive json :=
| JNull
| JBool (b : bool)
| JInt (z : Z)
| JFloat (repr : string)
| JStr (s : string)
| JList (items : list json)
| JDict (fields : gmap string json).

(** The three ways opening and decoding a file can end. *)
Inductive source :=
| Absent
| Undecodable
| Decoded (v : json).

(** [d.get(k)]: an absent key and a JSON [null] both come back as [None]. *)
Definition get (d : gmap string json) (k : string) : json :=
  default JNull (d !! k).

(** [d.get(k, dflt)] *)
Definition get_or (d : gmap string json) (k : string) (dflt : json) : json :=
  default dflt (d !! k).

(** [d[k]] on a dictionary of records.  The function only indexes with keys
    that are present ([no_key_error] below), so what an absent key gives is
    never looked at. *)
Definition index (d : gmap string (gmap string json)) (k : string)
  : gmap string json :=
  default ∅ (d !! k).

(** [v is None] *)
Definition is_none (v : json) : bool :=
  match v with JNull => true | _ => false end.

(** ** The graph container

    The part of [networkx.DiGraph] the function uses: a dictionary of node
    attribute dictionaries and a dictionary of edge attribute dictionaries. *)
Record DiGraph := mkDiGraph {
  nodes : gmap string (gmap string json);
  edges : gmap (string * string) (gmap string json)
}.

Definition empty_graph : DiGraph := mkDiGraph ∅ ∅.

(** [G.add_node(n, **attr)]: a new node gets [attr], an existing one is
    updated with it. *)
Definition add_node (G : DiGraph) (n : string) (attr : gmap string json)
  : DiGraph :=
  mkDiGraph (<[n := attr ∪ default ∅ (nodes G !! n)]> (nodes G)) (edges G).

(** [G.add_edge(u, v, **attr)]: both ends become nodes if they are not yet,
    and the edge's attribute dictionary is updated with [attr]. *)
Definition ensure_node (n : string) (ns : gmap string (gmap string json))
  : gmap string (gmap string json) :=
  match ns !! n with Some _ => ns | None => <[n := ∅]> ns end.

Definition add_edge (G : DiGraph) (u v : string) (attr : gmap string json)
  : DiGraph :=
  mkDiGraph (ensure_node v (ensure_node u (nodes G)))
            (<[(u, v) := attr ∪ default ∅ (edges G !! (u, v))]> (edges G)).

Definition has_edge (G : DiGraph) (u v : string) : bool :=
  bool_decide (is_Some (edges G !! (u, v))).

(** [G.edges[u, v][k] = x] *)
Definition set_edge_attr (G : DiGraph) (u v k : string) (x : json) : DiGraph :=
  mkDiGraph (nodes G) (alter (insert k x) (u, v) (edges G)).

(** ** Python sets

    The order in which a [for] loop visits a set of strings is fixed by the
    interpreter (string hashing is randomised per process), not by the
    program.  An iteration order is any enumeration of the elements. *)
Record set_order := mkSetOrder {
  set_iter : gset string → list string;
  set_iter_perm : ∀ X, set_iter X ≡ₚ elements X
}.

(** One of them, used to run the examples. *)
Definition canonical_order : set_order :=
  mkSetOrder elements (λ _, reflexivity _).

(** ** Text tests used by the delta marker *)

(** A-Z to a-z, every other byte as it is. *)
Definition lower_ascii (c : ascii) : ascii :=
  let n := nat_of_ascii c in
  if (65 <=? n)%nat && (n <=? 90)%nat then ascii_of_nat (n + 32) else c.

(** [text.lower()].  Only A-Z are folded: among the other code points Python
    lowers to an ASCII letter there are U+0130 (to i) and U+212A (to k) only,
    so the test for [!delta] below sees the same answer. *)
Fixpoint lower (s : string) : string :=
  match s with
  | EmptyString => EmptyString
  | String c s' => String (lower_ascii c) (lower s')
  end.

(** [needle in text].  On UTF-8 text a search byte by byte finds what a
    search by code point finds. *)
Fixpoint contains (needle text : string) : bool :=
  String.prefix needle text
  || match text with
     | EmptyString => false
     | String _ text' => contains needle text'
     end.

(** U+2206, the three bytes E2 88 86. *)
Definition delta_glyph : string :=
  String "226" (String "136" (String "134" EmptyString)).

Section Builder.

(** What [str] prints for a list or a dictionary (Python's [repr] of the
    nested value).  The program only stores the text or compares it with
    identifiers, and every property below holds whatever the rendering. *)
Variable container_str : json → string.

(** [str(v)] *)
Definition py_str (v : json) : string :=
  match v with
  | JNull => "None"
  | JBool true => "True"
  | JBool false => "False"
  | JInt z => pretty z
  | JFloat r => r
  | JStr s => s
  | JList _ | JDict _ => container_str v
  end.

(** ** Loading (lines 32-99) *)

(** A record that went through a loader, next to the canonical identifier
    the loader stored in its ['id'] field. *)
Definition loaded : Type := string * gmap string json.

(** The variables of the annotation loop: [valid_annotations],
    [annotation_ids] and the items a warning was logged for. *)
Record ann_state := mkAnnState {
  valid_annotations : list loaded;
  annotation_ids : gset string;
  skipped_items : list json
}.

(** One turn of the loop at lines 41-49.  [item.get('id')] comes first: on
    an item that is not a dictionary it raises [AttributeError], which the
    [except Exception] clause at line 61 turns into [return None]. *)
Definition annotation_step (st : ann_state) (item : json) : option ann_state :=
  match item with
  | JDict d =>
      let item_id := get d "id" in
      if is_none item_id
      then Some (mkAnnState (valid_annotations st) (annotation_ids st)
                            (skipped_items st ++ [item]))
      else
        let id := py_str item_id in
        Some (mkAnnState (valid_annotations st ++ [(id, <["id" := JStr id]> d)])
                         ({[id]} ∪ annotation_ids st)
                         (skipped_items st))
  | _ => None
  end.

Fixpoint annotation_loop (st : ann_state) (items : list json)
  : option ann_state :=
  match items with
  | [] => Some st
  | item :: rest =>
      match annotation_step st item with
      | Some st' => annotation_loop st' rest
      | None => None
      end
  end.

(** Lines 32-63.  [None] is [return None]. *)
Definition load_annotations (src : source) : option ann_state :=
  match src with
  | Absent | Undecodable => None
  | Decoded (JList items) => annotation_loop (mkAnnState [] ∅ []) items
  | Decoded _ => Some (mkAnnState [] ∅ [])
  end.

(** One turn of the loop at lines 77-81. *)
Definition utterance_step (all : gmap string (gmap string json)) (item : json)
  : option (gmap string (gmap string json)) :=
  match item with
  | JDict d =>
      let item_id := get d "id" in
      if is_none item_id then Some all
      else
        let id := py_str item_id in
        Some (<[id := <["id" := JStr id]> d]> all)
  | _ => None
  end.

Fixpoint utterance_loop (all : gmap string (gmap string json))
    (items : list json) : option (gmap string (gmap string json)) :=
  match items with
  | [] => Some all
  | item :: rest =>
      match utterance_step all item with
      | Some all' => utterance_loop all' rest
      | None => None
      end
  end.

(** Lines 69-93. *)
Definition load_utterances (src : source)
  : option (gmap string (gmap string json)) :=
  match src with
  | Decoded (JList items) => utterance_loop ∅ items
  | _ => None
  end.

(** ** Node selection (lines 101-123) *)

(** [str(raw) if raw is not None else None] for the ['reply-to'] field, as
    lines 111-113, 180-182 and 199-200 compute it. *)
Definition parent_id_of (utt : gmap string json) : option string :=
  let parent_id_raw := get utt "reply-to" in
  if is_none parent_id_raw then None else Some (py_str parent_id_raw).

(** Truth value of a dictionary: false only when it is empty. *)
Definition truthy_dict (d : gmap string json) : bool :=
  negb (bool_decide (dom d = (∅ : gset string))).

(** One turn of the loop at lines 108-116. *)
Definition parent_step (all : gmap string (gmap string json))
    (parent_ids_to_add : gset string) (node_id : string) : gset string :=
  match all !! node_id with
  | Some utterance_data =>
      if truthy_dict utterance_data then
        match parent_id_of utterance_data with
        | Some parent_id =>
            if bool_decide (is_Some (all !! parent_id))
            then {[parent_id]} ∪ parent_ids_to_add
            else parent_ids_to_add
        | None => parent_ids_to_add
        end
      else parent_ids_to_add
  | None => parent_ids_to_add
  end.

Definition required_node_ids (ids : gset string)
    (all : gmap string (gmap string json)) : gset string :=
  ids ∩ dom all.

Definition final_node_ids (O : set_order) (ids : gset string)
    (all : gmap string (gmap string json)) : gset string :=
  let required := required_node_ids ids all in
  required ∪ foldl (parent_step all) ∅ (set_iter O required).

(** Line 123, the comprehension over [final_node_ids]. *)
Definition utterances_for_graph (O : set_order) (final : gset string)
    (all : gmap string (gmap string json)) : gmap string (gmap string json) :=
  foldl (λ d node_id, <[node_id := index all node_id]> d) ∅ (set_iter O final).

(** ** Preparing the annotations (lines 125-143) *)

(** The exception that can leave the function. *)
Inductive exn := TypeError.

(** [relation_map.get(raw_relation)].  Looking a list or a dictionary up in
    a [dict] raises [TypeError] (unhashable type); nothing catches it here. *)
Definition relation_map_get (raw_relation : json) : exn + option string :=
  match raw_relation with
  | JList _ | JDict _ => inl TypeError
  | JStr s =>
      inr (if String.eqb s "a" then Some "attack"
           else if String.eqb s "s" then Some "support"
           else if String.eqb s "n" then Some "neutral"
           else None)
  | _ => inr None
  end.

(** [d[k] = v] on an insertion-ordered dictionary: a key that is present
    keeps its place. *)
Fixpoint dict_set {V} (d : list (string * V)) (k : string) (v : V)
  : list (string * V) :=
  match d with
  | [] => [(k, v)]
  | (k', v') :: d' =>
      if String.eqb k' k then (k, v) :: d' else (k', v') :: dict_set d' k v
  end.

(** One turn of the loop at lines 129-141 on [annotations_for_graph] and
    [invalid_relation_count]. *)
Definition prepare_step (final : gset string)
    (st : list loaded * nat) (item : loaded) : exn + (list loaded * nat) :=
  let '(annotations, invalid_relation_count) := st in
  let '(ann_id, d) := item in
  if bool_decide (ann_id ∈ final) then
    match relation_map_get (get d "reply_relation") with
    | inl e => inl e
    | inr (Some mapped_relation) =>
        inr (dict_set annotations ann_id
               (<["reply_relation" := JStr mapped_relation]> d),
             invalid_relation_count)
    | inr None =>
        inr (dict_set annotations ann_id d, S invalid_relation_count)
    end
  else inr st.

Fixpoint prepare_loop (final : gset string) (st : list loaded * nat)
    (raw_annotations : list loaded) : exn + (list loaded * nat) :=
  match raw_annotations with
  | [] => inr st
  | item :: rest =>
      match prepare_step final st item with
      | inl e => inl e
      | inr st' => prepare_loop final st' rest
      end
  end.

(** ** Nodes (lines 148-172) *)

(** ['meta' in utt_data and isinstance(utt_data['meta'], dict)] *)
Definition has_meta_dict (utt_data : gmap string json) : bool :=
  match utt_data !! "meta" with Some (JDict _) => true | _ => false end.

(** The test at line 162. *)
Definition delta_marker (text : string) : bool :=
  contains delta_glyph text || contains "!delta" (lower text).

Definition delta_awarded (utt_data : gmap string json) : bool :=
  let text := py_str (get_or utt_data "text" (JStr "")) in
  if has_meta_dict utt_data then
    if delta_marker text then true else false
  else false.

(** The keyword arguments of [G.add_node] at lines 166-172. *)
Definition node_attributes (utt_data : gmap string json) : gmap string json :=
  let text := py_str (get_or utt_data "text" (JStr "")) in
  let user := py_str (get_or utt_data "user" (JStr "")) in
  let root := py_str (get_or utt_data "root" (JStr "")) in
  let timestamp := get utt_data "timestamp" in
  let score := get utt_data "score" in
  let delta_str := py_str (JBool (delta_awarded utt_data)) in
  <["text" := JStr text]> (
  <["user" := JStr user]> (
  <["root" := JStr root]> (
  <["timestamp" := if is_none timestamp then JStr "" else timestamp]> (
  <["score" := if is_none score then JInt 0 else score]> (
  <["delta" := JStr delta_str]> ∅))))).

Definition node_step (for_graph : gmap string (gmap string json))
    (G : DiGraph) (node_id : string) : DiGraph :=
  add_node G node_id (node_attributes (index for_graph node_id)).

(** ** Edges (lines 175-187) *)

(** One turn of the loop at lines 178-186 on [G] and [edge_count]. *)
Definition edge_step (final : gset string)
    (for_graph : gmap string (gmap string json))
    (st : DiGraph * nat) (node_id : string) : DiGraph * nat :=
  let '(G, edge_count) := st in
  match parent_id_of (index for_graph node_id) with
  | Some parent_id =>
      if bool_decide (parent_id ∈ final)
      then (add_edge G parent_id node_id {["relation" := JStr "reply"]},
            S edge_count)
      else st
  | None => st
  end.

(** ** Binding the relations (lines 189-221) *)

(** [relation in ['attack', 'support', 'neutral']], and the string it is
    when so. *)
Definition asn_relation (relation : json) : option string :=
  match relation with
  | JStr s =>
      if String.eqb s "attack" || String.eqb s "support"
         || String.eqb s "neutral"
      then Some s else None
  | _ => None
  end.

(** Truth value of [parent_id]: [None] and the empty string are false. *)
Definition truthy_id (parent_id : option string) : option string :=
  match parent_id with
  | Some "" => None
  | other => other
  end.

(** The variables of the loop at lines 193-221. *)
Record bind_state := mkBindState {
  graph : DiGraph;
  asn_added_count : nat;
  asn_missing_edge_count : nat
}.

(** One turn of that loop.  The comparison of texts at lines 205-209 only
    logs and is left out. *)
Definition bind_step (for_graph : gmap string (gmap string json))
    (st : bind_state) (ann : loaded) : bind_state :=
  let '(ann_id, ann_data) := ann in
  match asn_relation (get ann_data "reply_relation") with
  | None => st
  | Some relation =>
      let parent_id := parent_id_of (index for_graph ann_id) in
      match truthy_id parent_id with
      | Some p =>
          if has_edge (graph st) p ann_id
          then mkBindState
                 (set_edge_attr (graph st) p ann_id "relation" (JStr relation))
                 (S (asn_added_count st)) (asn_missing_edge_count st)
          else mkBindState (graph st) (asn_added_count st)
                           (S (asn_missing_edge_count st))
      | None =>
          mkBindState (graph st) (asn_added_count st)
                      (S (asn_missing_edge_count st))
      end
  end.

(** ** The whole function *)

(** The counters the function keeps and reports in its log. *)
Record counters := mkCounters {
  invalid_relations : nat;
  edges_added : nat;
  asn_added : nat;
  asn_missing_edge : nat
}.

(** How a call ends: [return G], [return None], or an exception.  The
    counters are local variables the function logs; they are kept next to
    the graph so that properties can speak of them. *)
Inductive outcome :=
| Returned (G : DiGraph) (c : counters)
| ReturnedNone
| Raised (e : exn).

(** Lines 145-187: the graph and [edge_count] once the node loop and the
    edge loop have run, before any annotation is looked at. *)
Definition reply_graph (O : set_order) (final : gset string)
    (for_graph : gmap string (gmap string json)) : DiGraph * nat :=
  let G0 := foldl (node_step for_graph) empty_graph (set_iter O final) in
  foldl (edge_step final for_graph) (G0, 0) (set_iter O final).

(** Lines 101-228, from the two loaded inputs on. *)
Definition assemble (O : set_order) (raw_annotations : list loaded)
    (ids : gset string) (all : gmap string (gmap string json)) : outcome :=
  let final := final_node_ids O ids all in
  let for_graph := utterances_for_graph O final all in
  match prepare_loop final ([], 0) raw_annotations with
  | inl e => Raised e
  | inr (annotations_for_graph, invalid_relation_count) =>
      let '(G1, edge_count) := reply_graph O final for_graph in
      let st := foldl (bind_step for_graph) (mkBindState G1 0 0)
                      annotations_for_graph in
      Returned (graph st)
               (mkCounters invalid_relation_count edge_count
                           (asn_added_count st) (asn_missing_edge_count st))
  end.

(** Lines 9-228.  The arguments are what opening and decoding the two files
    gives. *)
Definition build_conversation_graph (O : set_order)
    (annotation_file original_data_file : source) : outcome :=
  match load_annotations annotation_file with
  | None => ReturnedNone
  | Some loaded_annotations =>
      if bool_decide (annotation_ids loaded_annotations = ∅) then ReturnedNone
      else
        match load_utterances original_data_file with
        | None => ReturnedNone
        | Some all_utterances_dict =>
            if bool_decide (dom all_utterances_dict = (∅ : gset string))
            then ReturnedNone
            else assemble O (valid_annotations loaded_annotations)
                          (annotation_ids loaded_annotations)
                          all_utterances_dict
        end
  end.

(** ** The main block (lines 232-271) *)

(** What the script reports when it ends. *)
Inductive report :=
| Exported (G : DiGraph)
| ExportFailed (G : DiGraph)
| ConstructionFailed.

(** [if graph:] at line 251.  [None] is false; a [DiGraph] defines no
    [__bool__], so its truth value is that of [len(graph)], its number of
    nodes. *)
Definition truthy_graph (G : DiGraph) : bool :=
  negb (bool_decide (dom (nodes G) = (∅ : gset string))).

(** Lines 244-271.  [write_graphml G] tells whether [nx.write_graphml]
    returns ([true]) or raises an exception, which line 265 catches
    ([false]).  An exception of [build_conversation_graph] is not caught. *)
Definition main (O : set_order) (write_graphml : DiGraph → bool)
    (annotation_file original_data_file : source) : exn + report :=
  match build_conversation_graph O annotation_file original_data_file with
  | Raised e => inl e
  | ReturnedNone => inr ConstructionFailed
  | Returned G _ =>
      if truthy_graph G
      then if write_graphml G then inr (Exported G) else inr (ExportFailed G)
      else inr ConstructionFailed
  end.

End Builder.

(** * Vocabulary of the properties *)

Section Vocabulary.

Local Open Scope list_scope.

Variable container_str : json → string.

Local Abbreviation str := (py_str container_str).
Local Abbreviation parent := (parent_id_of container_str).

(** ** What the loaders establish *)

(** Every loaded record carries its canonical identifier. *)
Definition keyed (all : gmap string (gmap string json)) : Prop :=
  ∀ id d, all !! id = Some d → d !! "id" = Some (JStr id).

(** The identifier set is the set of identifiers of the kept annotations. *)
Definition ids_match (st : ann_state) : Prop :=
  annotation_ids st = list_to_set (valid_annotations st).*1.

(** Some kept annotation is written for [n]. *)
Definition annotated (st : ann_state) (n : string) : Prop :=
  ∃ d, (n, d) ∈ valid_annotations st.

(** [isinstance(v, dict)] *)
Definition is_dict (v : json) : bool :=
  match v with JDict _ => true | _ => false end.

(** [isinstance(v, list)] *)
Definition is_list (v : json) : bool :=
  match v with JList _ => true | _ => false end.

(** The annotation source decodes and the loader ends with an empty
    identifier set. *)
Definition yields_no_ids (a : source) : Prop :=
  ∃ st, load_annotations container_str a = Some st ∧ annotation_ids st = ∅.

(** ** Reply-to references *)

(** The record of [c] names [p] as its parent. *)
Definition replies_to (all : gmap string (gmap string json))
    (c p : string) : Prop :=
  ∃ d, all !! c = Some d ∧ parent d = Some p.

(** [p] is what the reply-to reference of the corpus record [c] names, and
    [p] is itself in the corpus. *)
Definition corpus_parent (all : gmap string (gmap string json))
    (c p : string) : Prop :=
  ∃ d, all !! c = Some d ∧ parent d = Some p ∧ p ∈ dom all.

(** ** Edges *)

(** The graph has an edge from [p] to [c]. *)
Definition edge_rel (G : DiGraph) (p c : string) : Prop :=
  is_Some (edges G !! (p, c)).

(** The node [c] gets an edge from [p]: [p] is what its reply-to reference
    names, and [p] is a selected node. *)
Definition edge_into (final : gset string)
    (recs : gmap string (gmap string json)) (c : string) : option string :=
  match parent (index recs c) with
  | Some p => if bool_decide (p ∈ final) then Some p else None
  | None => None
  end.

(** The attributes line 185 gives a new edge. *)
Definition reply_attr : gmap string json := {["relation" := JStr "reply"]}.

(** The attributes of an edge whose relation is [r]. *)
Definition relation_attr (r : string) : gmap string json :=
  {["relation" := JStr r]}.

(** The edges of the reply graph: one into every selected node whose parent
    is selected, all of them labelled [reply]. *)
Definition reply_edge (final : gset string)
    (all : gmap string (gmap string json)) (p c : string)
  : option (gmap string json) :=
  if decide (c ∈ final ∧ edge_into final all c = Some p)
  then Some reply_attr else None.

(** ** Annotations *)

(** [d.get(k)] on an insertion-ordered dictionary. *)
Fixpoint dict_get {V} (d : list (string * V)) (k : string) : option V :=
  match d with
  | [] => None
  | (k', v) :: d' => if String.eqb k' k then Some v else dict_get d' k
  end.

(** The raw relation code of an annotation. *)
Definition code (d : gmap string json) : json := get d "reply_relation".

(** The code is hashable and is none of [a], [s], [n]. *)
Definition unmapped (d : gmap string json) : Prop :=
  relation_map_get (code d) = inr None.

Global Instance unmapped_dec d : Decision (unmapped d).
Proof.
  unfold unmapped. destruct (relation_map_get (code d)) as [e|[m|]].
  - right. discriminate.
  - right. discriminate.
  - by left.
Defined.

(** The record line 137 or line 141 stores for an annotation. *)
Definition prepared (d : gmap string json) : gmap string json :=
  match relation_map_get (code d) with
  | inr (Some mapped_relation) => <["reply_relation" := JStr mapped_relation]> d
  | _ => d
  end.

(** The last annotation of the list written for [c]. *)
Fixpoint last_annotation (raw : list loaded) (c : string)
  : option (gmap string json) :=
  match raw with
  | [] => None
  | (c', d) :: rest =>
      match last_annotation rest c with
      | Some d' => Some d'
      | None => if decide (c' = c) then Some d else None
      end
  end.

(** The relation names of line 196. *)
Definition relation_words : list string := ["attack"; "support"; "neutral"].

(** The relation stored with the annotation is one of the three relation
    words: line 196 lets it through. *)
Definition has_relation_word (ann : loaded) : bool :=
  match asn_relation (code ann.2) with Some _ => true | None => false end.

(** ** Relation binding *)

(** The parent the binding loop looks an edge up from. *)
Definition bind_target (recs : gmap string (gmap string json)) (c : string)
  : option string :=
  truthy_id (parent (index recs c)).

(** What the loop makes of the attributes [a] of the edge from [p] to [c]. *)
Definition relabel (recs : gmap string (gmap string json))
    (annotations : list loaded) (p c : string)
    (a : option (gmap string json)) : option (gmap string json) :=
  match dict_get annotations c with
  | Some d =>
      match asn_relation (code d) with
      | Some r =>
          if decide (bind_target recs c = Some p)
          then insert "relation" (JStr r) <$> a else a
      | None => a
      end
  | None => a
  end.

(** The test of line 203 for the annotation of [c], and the two counters
    it feeds. *)
Definition edge_found (G : DiGraph) (recs : gmap string (gmap string json))
    (c : string) : bool :=
  match bind_target recs c with Some p => has_edge G p c | None => false end.

Definition applies (G : DiGraph) (recs : gmap string (gmap string json))
    (ann : loaded) : bool :=
  match asn_relation (code ann.2) with
  | Some _ => edge_found G recs ann.1
  | None => false
  end.

Definition misses (G : DiGraph) (recs : gmap string (gmap string json))
    (ann : loaded) : bool :=
  match asn_relation (code ann.2) with
  | Some _ => negb (edge_found G recs ann.1)
  | None => false
  end.

(** The relation the returned graph carries on the edge from [p] to [c]. *)
Definition edge_label (all : gmap string (gmap string json))
    (raw : list loaded) (p c : string) : string :=
  match last_annotation raw c with
  | Some d =>
      match asn_relation (code (prepared d)) with
      | Some r => if decide (bind_target all c = Some p) then r else "reply"
      | None => "reply"
      end
  | None => "reply"
  end.

(** ** The delta marker *)

(** The text line 153 takes from a record. *)
Definition text_of (utt_data : gmap string json) : string :=
  str (get_or utt_data "text" (JStr "")).

(** The text has the delta glyph in it, or a stretch that reads [!delta]
    when case is ignored. *)
Definition has_delta_marker (text : string) : Prop :=
  (∃ pre post, text = (pre ++ delta_glyph ++ post)%string)
  ∨ (∃ pre mid post,
       text = (pre ++ mid ++ post)%string ∧ lower mid = "!delta").

(** ** Cycles *)

(** No directed cycle, self-loops included. *)
Definition acyclic (G : DiGraph) : Prop := ∀ x, ¬ tc (edge_rel G) x x.

(** No utterance of the corpus is reached from itself along reply-to
    references. *)
Definition no_reply_cycle (all : gmap string (gmap string json)) : Prop :=
  ∀ x, ¬ tc (replies_to all) x x.

(** Following the reply-to references from [c] leaves the corpus, or ends
    at a record without one, within [fuel] steps. *)
Fixpoint chain_ends (all : gmap string (gmap string json)) (fuel : nat)
    (c : string) : bool :=
  match fuel with
  | 0 => false
  | S fuel' =>
      match all !! c with
      | Some d =>
          match parent d with
          | Some p => chain_ends all fuel' p
          | None => true
          end
      | None => true
      end
  end.

(** ** The loaders, item by item *)

(** What either loader keeps of one item of a list of mappings: nothing
    when the identifier is missing or null, else the record under its
    identifier as a string. *)
Definition kept (item : json) : option loaded :=
  match item with
  | JDict d =>
      if is_none (get d "id") then None
      else Some (str (get d "id"), <["id" := JStr (str (get d "id"))]> d)
  | _ => None
  end.

(** The last item of a list that a loader keeps under the identifier
    [k]. *)
Definition last_kept (items : list json) (k : string)
  : option (gmap string json) :=
  last_annotation (omap kept items) k.

(** A value [dict.get] cannot hash. *)
Definition unhashable (v : json) : bool :=
  match v with JList _ | JDict _ => true | _ => false end.

(** The six attributes of a node. *)
Definition node_keys : gset string :=
  {["text"; "user"; "root"; "timestamp"; "score"; "delta"]}.

(** The value is a Python string. *)
Definition is_str (v : json) : bool :=
  match v with JStr _ => true | _ => false end.

(** The target of the annotation is a node whose last annotation stores a
    relation word. *)
Definition stores_relation_word (raw : list loaded) (c : string) : bool :=
  match last_annotation raw c with
  | Some d =>
      match asn_relation (code (prepared d)) with
      | Some _ => true
      | None => false
      end
  | None => false
  end.

(** The record of [ch] names a parent whose identifier is not the empty
    string and is in the corpus. *)
Definition finds_parent (all : gmap string (gmap string json))
    (ch : string) : bool :=
  match bind_target all ch with
  | Some p => bool_decide (p ∈ dom all)
  | None => false
  end.

(** ** The specification's wording, where the code departs from it *)

(** The record carries a ['meta'] field that is a mapping with at least one
    entry. *)
Definition has_nonempty_meta (utt_data : gmap string json) : bool :=
  match utt_data !! "meta" with
  | Some (JDict m) => negb (bool_decide (dom m = (∅ : gset string)))
  | _ => false
  end.

(** "The delta check is evaluated only when the record carries a non-empty
    metadata mapping." *)
Definition delta_needs_nonempty_meta (O : set_order) (a c : source) : Prop :=
  ∀ G k all n attrs d,
    build_conversation_graph container_str O a c = Returned G k →
    load_utterances container_str c = Some all →
    nodes G !! n = Some attrs →
    all !! n = Some d →
    attrs !! "delta"
    = Some (JStr (str (JBool (has_nonempty_meta d
                              && delta_marker (text_of d))))).

(** "For every input the returned graph has no directed cycle." *)
Definition always_acyclic (O : set_order) (a c : source) : Prop :=
  ∀ G k,
    build_conversation_graph container_str O a c = Returned G k → acyclic G.

End Vocabulary.

(** * Example inputs *)

(** A rendering of containers for the examples below, none of which has a
    list or a dictionary where an identifier is expected. *)
Definition plain_str : json → string := λ _, "<container>".

Definition obj (kvs : list (string * json)) : json := JDict (list_to_map kvs).

(** The corpus A <- B <- C of the specification's example. *)
Definition chain_corpus : source :=
  Decoded (JList [ obj [("id", JStr "A")];
                   obj [("id", JStr "B"); ("reply-to", JStr "A")];
                   obj [("id", JStr "C"); ("reply-to", JStr "B")] ]).

Definition annotate (id relation : string) : json :=
  obj [("id", JStr id); ("reply_relation", JStr relation)].

Definition chain_annotations : source :=
  Decoded (JList [ annotate "C" "a" ]).

(** The attributes of a node whose record has an identifier and at most a
    parent reference. *)
Definition bare_node : gmap string json :=
  list_to_map [ ("text", JStr ""); ("user", JStr ""); ("root", JStr "");
                ("timestamp", JStr ""); ("score", JInt 0);
                ("delta", JStr "False") ].

(** The graph the specification's example expects. *)
Definition chain_graph : DiGraph :=
  mkDiGraph (list_to_map [ ("B", bare_node); ("C", bare_node) ])
            {[ ("B", "C") := {["relation" := JStr "attack"]} ]}.

(** The corpus as the utterance loader keeps it. *)
Definition chain_records : gmap string (gmap string json) :=
  list_to_map
    [ ("A", list_to_map [("id", JStr "A")]);
      ("B", list_to_map [("id", JStr "B"); ("reply-to", JStr "A")]);
      ("C", list_to_map [("id", JStr "C"); ("reply-to", JStr "B")]) ].

(** The annotation of C behind a number that stands where a mapping is
    expected, and behind a mapping without identifier. *)
Definition number_item_annotations : source :=
  Decoded (JList [ JInt 7; annotate "C" "a" ]).

Definition no_id_item : json := obj [("reply_relation", JStr "s")].

Definition no_id_annotations : source :=
  Decoded (JList [ no_id_item; annotate "C" "a" ]).

(** An annotation for an utterance the corpus does not have next to an
    annotation of C, both with an unknown code, and the graph they give: the
    edge keeps its first label. *)
Definition unknown_annotations : source :=
  Decoded (JList [ annotate "Z" "x"; annotate "C" "x" ]).

Definition chain_reply_graph : DiGraph :=
  mkDiGraph (nodes chain_graph)
            {[ ("B", "C") := {["relation" := JStr "reply"]} ]}.

(** A file that holds the annotation list inside a mapping. *)
Definition wrapped_annotations : source :=
  Decoded (obj [("annotations", JList [ annotate "C" "a" ])]).

(** A lone root, annotated with the word [attack] where a code is
    expected. *)
Definition lone_corpus : source := Decoded (JList [ obj [("id", JStr "C")] ]).

Definition word_annotations : source :=
  Decoded (JList [ annotate "C" "attack" ]).

Definition lone_graph : DiGraph := mkDiGraph {["C" := bare_node]} ∅.

(** An utterance with an empty metadata mapping and a delta command. *)
Definition delta_record : gmap string json :=
  list_to_map [ ("id", JStr "X"); ("text", JStr "thanks !Delta");
                ("meta", JDict ∅) ].

Definition delta_corpus : source := Decoded (JList [ JDict delta_record ]).

Definition delta_annotations : source := Decoded (JList [ annotate "X" "n" ]).

Definition delta_graph : DiGraph :=
  mkDiGraph {["X" := <["text" := JStr "thanks !Delta"]>
                       (<["delta" := JStr "True"]> bare_node)]} ∅.

(** An utterance that replies to itself. *)
Definition self_corpus : source :=
  Decoded (JList [ obj [("id", JStr "C"); ("reply-to", JStr "C")] ]).

Definition self_annotations : source := Decoded (JList [ annotate "C" "s" ]).

Definition self_graph : DiGraph :=
  mkDiGraph {["C" := bare_node]}
            {[ ("C", "C") := {["relation" := JStr "support"]} ]}.

(** The annotation of C as the annotation loader keeps it, and what the
    loader returns for the two annotation files that hold it. *)
Definition chain_annotation_record : gmap string json :=
  list_to_map [("id", JStr "C"); ("reply_relation", JStr "a")].

Definition chain_loaded : ann_state :=
  mkAnnState [("C", chain_annotation_record)] {["C"]} [].

Definition no_id_loaded : ann_state :=
  mkAnnState [("C", chain_annotation_record)] {["C"]} [no_id_item].

(** Two utterances whose identifiers, the number 7 and the string "7",
    are the same once coerced. *)
Definition second_seven : gmap string json :=
  list_to_map [("id", JStr "7"); ("text", JStr "second")].

Definition seven_corpus : source :=
  Decoded (JList [ obj [("id", JInt 7); ("text", JStr "first")];
                   JDict second_seven ]).

(** The chain behind a string that stands where a mapping is expected. *)
Definition string_item_utterances : list json :=
  [ JStr "A"; obj [("id", JStr "B"); ("reply-to", JStr "A")] ].

(** An annotation file that misses the corpus altogether. *)
Definition missing_annotations : source :=
  Decoded (JList [ annotate "Z" "x" ]).

Definition missing_loaded : ann_state :=
  mkAnnState [("Z", list_to_map [("id", JStr "Z");
                                 ("reply_relation", JStr "x")])]
             {["Z"]} [].

(** The chain with B annotated as well as C. *)
Definition both_annotations : source :=
  Decoded (JList [ annotate "C" "a"; annotate "B" "s" ]).

Definition both_loaded : ann_state :=
  mkAnnState [("C", chain_annotation_record);
              ("B", list_to_map [("id", JStr "B");
                                 ("reply_relation", JStr "s")])]
             {["B"; "C"]} [].

Definition whole_chain_graph : DiGraph :=
  mkDiGraph (list_to_map [ ("A", bare_node); ("B", bare_node);
                           ("C", bare_node) ])
            (list_to_map
               [ (("A", "B"), {["relation" := JStr "support"]});
                 (("B", "C"), {["relation" := JStr "attack"]}) ]).

(** An annotation of C whose relation code is a list. *)
Definition list_code_annotations : source :=
  Decoded (JList [ obj [("id", JStr "C");
                        ("reply_relation", JList [JStr "a"])] ]).

(** * Properties *)

Section Properties.

Local Open Scope list_scope.

Variable container_str : json → string.

Local Abbreviation str := (py_str container_str).
Local Abbreviation parent := (parent_id_of container_str).
Local Abbreviation corpus_parent := (corpus_parent container_str).
Local Abbreviation edge_into := (edge_into container_str).
Local Abbreviation bind_target := (bind_target container_str).
Local Abbreviation relabel := (relabel container_str).
Local Abbreviation edge_found := (edge_found container_str).
Local Abbreviation applies := (applies container_str).
Local Abbreviation misses := (misses container_str).
Local Abbreviation reply_edge := (reply_edge container_str).
Local Abbreviation yields_no_ids := (yields_no_ids container_str).
Local Abbreviation replies_to := (replies_to container_str).
Local Abbreviation edge_label := (edge_label container_str).
Local Abbreviation text_of := (text_of container_str).
Local Abbreviation no_reply_cycle := (no_reply_cycle container_str).
Local Abbreviation chain_ends := (chain_ends container_str).

(** ** Iteration orders *)

Lemma elem_of_set_iter (O : set_order) (X : gset string) (x : string) :
  x ∈ set_iter O X ↔ x ∈ X.
Proof. rewrite (set_iter_perm O X). apply elem_of_elements. Qed.

Lemma NoDup_set_iter (O : set_order) (X : gset string) : NoDup (set_iter O X).
Proof. rewrite (set_iter_perm O X). apply NoDup_elements. Qed.

Lemma filter_ext_in {A} (P Q : A → Prop) `{∀ x, Decision (P x)}
    `{∀ x, Decision (Q x)} (l : list A) :
  (∀ x, x ∈ l → P x ↔ Q x) → filter P l = filter Q l.
Proof.
  induction l as [|x l IH]; intros Hext; [done|].
  rewrite !filter_cons, IH by (intros y Hy; apply Hext; by right).
  apply decide_ext, Hext. by left.
Qed.

(** ** The loaders *)

Lemma utterance_step_keyed all item all' :
  keyed all → utterance_step container_str all item = Some all' → keyed all'.
Proof.
  intros Hk Hstep. destruct item; simpl in Hstep; try discriminate.
  destruct (is_none (get fields "id")); simplify_eq; [done|].
  intros id d. rewrite lookup_insert. case_decide; [|by apply Hk].
  intros [= <-]. subst id. by rewrite lookup_insert_eq.
Qed.

Lemma utterance_loop_keyed items all all' :
  keyed all → utterance_loop container_str all items = Some all' → keyed all'.
Proof.
  revert all. induction items as [|item rest IH]; simpl; intros all Hk Hloop.
  - by simplify_eq.
  - destruct (utterance_step container_str all item) as [all1|] eqn:Hstep;
      [|discriminate].
    eapply IH; [|done]. by eapply utterance_step_keyed.
Qed.

Lemma load_utterances_keyed src all :
  load_utterances container_str src = Some all → keyed all.
Proof.
  destruct src as [| |v]; try discriminate. destruct v; try discriminate.
  simpl. apply utterance_loop_keyed. intros id d. by rewrite lookup_empty.
Qed.

Lemma keyed_truthy all id d :
  keyed all → all !! id = Some d → truthy_dict d = true.
Proof.
  intros Hk Hd. apply Hk in Hd. unfold truthy_dict.
  apply negb_true_iff, bool_decide_eq_false. intros Hdom.
  assert ("id" ∈ dom d) as Hin by (apply elem_of_dom; eauto).
  rewrite Hdom in Hin. set_solver.
Qed.

Lemma annotation_step_ids st item st' :
  ids_match st → annotation_step container_str st item = Some st' →
  ids_match st'.
Proof.
  unfold ids_match. intros Hm Hstep.
  destruct item; simpl in Hstep; try discriminate.
  destruct (is_none (get fields "id")); simplify_eq; simpl; [done|].
  rewrite fmap_app, list_to_set_app_L, Hm. simpl. set_solver.
Qed.

Lemma annotation_loop_ids items st st' :
  ids_match st → annotation_loop container_str st items = Some st' →
  ids_match st'.
Proof.
  revert st. induction items as [|item rest IH]; simpl; intros st Hm Hloop.
  - by simplify_eq.
  - destruct (annotation_step container_str st item) as [st1|] eqn:Hstep;
      [|discriminate].
    eapply IH; [|done]. by eapply annotation_step_ids.
Qed.

Lemma load_annotations_ids src st :
  load_annotations container_str src = Some st → ids_match st.
Proof.
  assert (ids_match (mkAnnState [] ∅ [])) as H0 by done.
  destruct src as [| |v]; try discriminate.
  destruct v; simpl; intros ?; simplify_eq; try done.
  by eapply annotation_loop_ids.
Qed.

(** ** Node selection *)

Lemma elem_of_parent_fold all l acc p :
  keyed all →
  p ∈ foldl (parent_step container_str all) acc l
  ↔ p ∈ acc ∨ ∃ c, c ∈ l ∧ corpus_parent all c p.
Proof.
  intros Hk. revert acc. induction l as [|x l IH]; intros acc; simpl.
  - split; [by left|]. intros [?|(c & Hc & _)]; [done|]. by inversion Hc.
  - rewrite IH. unfold parent_step at 1.
    destruct (all !! x) as [d|] eqn:Hx.
    + rewrite (keyed_truthy all x d Hk Hx).
      destruct (parent d) as [q|] eqn:Hq.
      * case_bool_decide as Hq'.
        -- rewrite elem_of_union, elem_of_singleton. split.
           ++ intros [[->|?]|(c & Hc & Hp)]; [|by left|].
              ** right. exists x. split; [left|].
                 exists d. by rewrite elem_of_dom.
              ** right. exists c. split; [by right|done].
           ++ intros [?|(c & Hc & Hp)]; [by left; right|].
              apply elem_of_cons in Hc as [->|Hc]; [|right; eauto].
              destruct Hp as (d' & Hd' & Hp & _). simplify_eq. by left; left.
        -- split.
           ++ intros [?|(c & Hc & Hp)]; [by left|].
              right. exists c. split; [by right|done].
           ++ intros [?|(c & Hc & Hp)]; [by left|].
              apply elem_of_cons in Hc as [->|Hc]; [|right; eauto].
              destruct Hp as (d' & Hd' & Hp & Hdom). simplify_eq.
              by apply elem_of_dom in Hdom.
      * split.
        -- intros [?|(c & Hc & Hp)]; [by left|].
           right. exists c. split; [by right|done].
        -- intros [?|(c & Hc & Hp)]; [by left|].
           apply elem_of_cons in Hc as [->|Hc]; [|right; eauto].
           destruct Hp as (d' & Hd' & Hp & _). simplify_eq.
    + split.
      * intros [?|(c & Hc & Hp)]; [by left|].
        right. exists c. split; [by right|done].
      * intros [?|(c & Hc & Hp)]; [by left|].
        apply elem_of_cons in Hc as [->|Hc]; [|right; eauto].
        destruct Hp as (d' & Hd' & _). simplify_eq.
Qed.

Lemma elem_of_final_node_ids O ids all n :
  keyed all →
  n ∈ final_node_ids container_str O ids all
  ↔ (n ∈ ids ∧ n ∈ dom all)
    ∨ ∃ c, (c ∈ ids ∧ c ∈ dom all) ∧ corpus_parent all c n.
Proof.
  intros Hk. unfold final_node_ids, required_node_ids.
  rewrite elem_of_union, elem_of_parent_fold by done.
  rewrite elem_of_intersection. setoid_rewrite elem_of_set_iter.
  setoid_rewrite elem_of_intersection. set_solver.
Qed.

Lemma final_node_ids_in_corpus O ids all :
  keyed all → final_node_ids container_str O ids all ⊆ dom all.
Proof.
  intros Hk n. rewrite elem_of_final_node_ids by done.
  intros [[_ ?]|(c & _ & d & _ & _ & ?)]; done.
Qed.

Lemma final_node_ids_order O1 O2 ids all :
  keyed all →
  final_node_ids container_str O1 ids all
  = final_node_ids container_str O2 ids all.
Proof.
  intros Hk. apply set_eq. intros n.
  by rewrite !elem_of_final_node_ids.
Qed.

(** ** The records handed to the graph *)

Lemma lookup_for_graph_fold (all acc : gmap string (gmap string json)) l n :
  foldl (λ d node_id, <[node_id := index all node_id]> d) acc l !! n
  = if decide (n ∈ l) then Some (index all n) else acc !! n.
Proof.
  revert acc. induction l as [|x l IH]; intros acc; simpl; [done|].
  rewrite IH. destruct (decide (n ∈ l)) as [Hl|Hl].
  - rewrite decide_True; [done|by right].
  - rewrite lookup_insert. destruct (decide (x = n)) as [->|Hne].
    + rewrite decide_True; [done|by left].
    + rewrite decide_False; [done|].
      intros [?|?]%elem_of_cons; congruence.
Qed.

Lemma utterances_for_graph_lookup O final all n :
  utterances_for_graph O final all !! n
  = if decide (n ∈ final) then Some (index all n) else None.
Proof.
  unfold utterances_for_graph. rewrite lookup_for_graph_fold, lookup_empty.
  destruct (decide (n ∈ final)) as [Hn|Hn].
  - rewrite decide_True; [done|by apply elem_of_set_iter].
  - rewrite decide_False; [done|by rewrite elem_of_set_iter].
Qed.

Lemma index_for_graph O final all n :
  n ∈ final → index (utterances_for_graph O final all) n = index all n.
Proof.
  intros Hn. unfold index at 1.
  by rewrite utterances_for_graph_lookup, decide_True.
Qed.

Lemma utterances_for_graph_order O1 O2 final all :
  utterances_for_graph O1 final all = utterances_for_graph O2 final all.
Proof. apply map_eq. intros n. by rewrite !utterances_for_graph_lookup. Qed.

(** ** The node loop *)

Lemma node_fold_spec (for_graph : gmap string (gmap string json)) l :
  edges (foldl (node_step container_str for_graph) empty_graph l) = ∅
  ∧ ∀ n, nodes (foldl (node_step container_str for_graph) empty_graph l) !! n
         = if decide (n ∈ l)
           then Some (node_attributes container_str (index for_graph n))
           else None.
Proof.
  induction l as [|x l [IHe IHn]] using rev_ind.
  - split; [done|]. intros n. simpl. by rewrite lookup_empty.
  - rewrite foldl_app. simpl. split; [done|].
    intros n. unfold node_step at 1, add_node. simpl.
    rewrite lookup_insert. destruct (decide (x = n)) as [->|Hne].
    + rewrite decide_True by (apply elem_of_app; right; by left).
      rewrite IHn. case_decide; simpl.
      * by rewrite map_union_idemp.
      * by rewrite map_union_empty.
    + rewrite IHn. destruct (decide (n ∈ l)) as [Hl|Hl].
      * rewrite decide_True; [done|apply elem_of_app; by left].
      * rewrite decide_False; [done|].
        intros [?|Hx%list_elem_of_singleton]%elem_of_app; congruence.
Qed.

(** ** The edge loop *)

Lemma ensure_node_present n (ns : gmap string (gmap string json)) :
  is_Some (ns !! n) → ensure_node n ns = ns.
Proof. intros [a Ha]. unfold ensure_node. by rewrite Ha. Qed.

Lemma edge_into_final final recs c p :
  edge_into final recs c = Some p → p ∈ final.
Proof.
  unfold edge_into. destruct (parent (index recs c)); [|done].
  case_bool_decide; congruence.
Qed.

Lemma edge_into_parent final recs c p :
  edge_into final recs c = Some p ↔ parent (index recs c) = Some p ∧ p ∈ final.
Proof.
  unfold edge_into. destruct (parent (index recs c)) as [q|].
  - case_bool_decide; split.
    + by intros [= ->].
    + by intros [[= ->] _].
    + done.
    + intros [[= ->] ?]. done.
  - split; [done|by intros [? _]].
Qed.

Lemma edge_step_unfold final for_graph G n x :
  edge_step container_str final for_graph (G, n) x
  = match edge_into final for_graph x with
    | Some q => (add_edge G q x reply_attr, S n)
    | None => (G, n)
    end.
Proof.
  unfold edge_step, edge_into. destruct (parent (index for_graph x)); [|done].
  by case_bool_decide.
Qed.

Lemma edge_fold_spec final for_graph G0 l :
  (∀ n, n ∈ final → is_Some (nodes G0 !! n)) →
  edges G0 = ∅ →
  (∀ c, c ∈ l → c ∈ final) →
  nodes (foldl (edge_step container_str final for_graph) (G0, 0) l).1
    = nodes G0
  ∧ (∀ p c,
      edges (foldl (edge_step container_str final for_graph) (G0, 0) l).1
        !! (p, c)
      = if decide (c ∈ l ∧ edge_into final for_graph c = Some p)
        then Some reply_attr else None)
  ∧ (foldl (edge_step container_str final for_graph) (G0, 0) l).2
    = length (filter (λ c, is_Some (edge_into final for_graph c)) l).
Proof.
  intros Hnodes Hedges. induction l as [|x l IH] using rev_ind; intros Hl.
  - simpl. split_and!; [done| |done].
    intros p c. by rewrite Hedges, lookup_empty.
  - destruct IH as (IHn & IHe & IHc).
    { intros c Hc. apply Hl, elem_of_app. by left. }
    assert (x ∈ final) as Hx by (apply Hl, elem_of_app; right; by left).
    rewrite foldl_app, filter_app, length_app. cbn [foldl].
    destruct (foldl (edge_step container_str final for_graph) (G0, 0) l)
      as [G n] eqn:Hfold. cbn [fst snd] in IHn, IHe, IHc.
    assert (∀ p c : string,
              (c ∈ l ++ [x] ∧ edge_into final for_graph c = Some p)
              ↔ (c ∈ l ∧ edge_into final for_graph c = Some p)
                ∨ (c = x ∧ edge_into final for_graph x = Some p)) as Hsplit.
    { intros p c. rewrite elem_of_app, list_elem_of_singleton.
      split; [intros [[? | ->] ?]; eauto|].
      intros [[? ?] | [-> ?]]; eauto. }
    rewrite edge_step_unfold, filter_cons, filter_nil.
    destruct (edge_into final for_graph x) as [q|] eqn:Hq.
    + assert (q ∈ final) as Hqf by by eapply edge_into_final.
      rewrite decide_True by eauto. simpl. split_and!.
      * rewrite IHn, (ensure_node_present q) by eauto.
        by rewrite ensure_node_present by eauto.
      * intros p c. rewrite lookup_insert.
        destruct (decide ((q, x) = (p, c))) as [[= -> ->]|Hne].
        -- rewrite decide_True; [|apply Hsplit; by right].
           rewrite IHe. case_decide; simpl; unfold reply_attr.
           ++ by rewrite map_union_idemp.
           ++ by rewrite map_union_empty.
        -- rewrite IHe. apply decide_ext. rewrite Hsplit.
           split; [by left|]. intros [?|[-> [= ->]]]; [done|].
           congruence.
      * lia.
    + rewrite decide_False by (by intros [? ?]).
      simpl. split_and!; [done| |lia].
      intros p c. rewrite IHe. apply decide_ext. rewrite Hsplit.
      split; [by left|]. intros [?|[-> ?]]; [done|discriminate].
Qed.

(** ** The annotation dictionary *)

Lemma dict_get_set {V} (d : list (string * V)) k v k' :
  dict_get (dict_set d k v) k' = if decide (k = k') then Some v else dict_get d k'.
Proof.
  induction d as [|[k0 v0] d IH]; simpl.
  - destruct (String.eqb_spec k k'); by case_decide.
  - destruct (String.eqb_spec k0 k) as [->|Hne]; simpl.
    + destruct (String.eqb_spec k k'); by case_decide.
    + rewrite IH. destruct (String.eqb_spec k0 k') as [->|Hne']; [|done].
      by rewrite decide_False by done.
Qed.

Lemma dict_set_keys {V} (d : list (string * V)) k v k' :
  k' ∈ (dict_set d k v).*1 ↔ k' = k ∨ k' ∈ d.*1.
Proof.
  induction d as [|[k0 v0] d IH]; simpl.
  - set_solver.
  - destruct (String.eqb_spec k0 k) as [->|Hne]; simpl.
    + set_solver.
    + rewrite !elem_of_cons, IH. naive_solver.
Qed.

Lemma dict_set_NoDup {V} (d : list (string * V)) k v :
  NoDup d.*1 → NoDup (dict_set d k v).*1.
Proof.
  induction d as [|[k0 v0] d IH]; simpl; intros Hnd.
  - apply NoDup_singleton.
  - apply NoDup_cons in Hnd as [Hk0 Hnd].
    destruct (String.eqb_spec k0 k) as [->|Hne]; simpl.
    + by apply NoDup_cons.
    + apply NoDup_cons. split; [|by apply IH].
      rewrite dict_set_keys. naive_solver.
Qed.

Lemma dict_get_None {V} (d : list (string * V)) k :
  k ∉ d.*1 → dict_get d k = None.
Proof.
  induction d as [|[k0 v0] d IH]; simpl; [done|].
  rewrite not_elem_of_cons. intros [Hne Hk].
  destruct (String.eqb_spec k0 k); [congruence|by apply IH].
Qed.

Lemma dict_get_snoc {V} (d : list (string * V)) k v k' :
  k ∉ d.*1 →
  dict_get (d ++ [(k, v)]) k' = if decide (k = k') then Some v else dict_get d k'.
Proof.
  induction d as [|[k0 v0] d IH]; simpl.
  - intros _. destruct (String.eqb_spec k k'); by case_decide.
  - rewrite not_elem_of_cons. intros [Hne Hk].
    destruct (String.eqb_spec k0 k') as [->|Hne']; [|by apply IH].
    by rewrite decide_False by done.
Qed.

Lemma dict_get_elem_of {V} (d : list (string * V)) k v :
  dict_get d k = Some v → (k, v) ∈ d.
Proof.
  induction d as [|[k0 v0] d IH]; simpl; [done|].
  destruct (String.eqb_spec k0 k) as [->|Hne].
  - intros [= ->]. by left.
  - intros ?. right. by apply IH.
Qed.

(** ** Preparing the annotations *)

Lemma prepare_step_spec final st item st' :
  prepare_step final st item = inr st' →
  NoDup st.1.*1 →
  NoDup st'.1.*1
  ∧ (∀ c, dict_get st'.1 c
          = if decide (item.1 ∈ final ∧ item.1 = c)
            then Some (prepared item.2) else dict_get st.1 c)
  ∧ st'.2 = st.2 + (if decide (item.1 ∈ final ∧ unmapped item.2) then 1 else 0).
Proof.
  destruct st as [afg inv], item as [k d]. unfold prepare_step. simpl.
  case_bool_decide as Hk.
  - change (get d "reply_relation") with (code d).
    destruct (relation_map_get (code d)) as [e|[m|]] eqn:Hm; [done|..];
      intros [= <-] Hnd; simpl.
    + assert (prepared d = <["reply_relation" := JStr m]> d) as ->
        by (unfold prepared; by rewrite Hm).
      split_and!; [by apply dict_set_NoDup| |].
      * intros c. rewrite dict_get_set. apply decide_ext. naive_solver.
      * rewrite decide_False; [lia|]. unfold unmapped. rewrite Hm.
        by intros [_ ?].
    + assert (prepared d = d) as -> by (unfold prepared; by rewrite Hm).
      split_and!; [by apply dict_set_NoDup| |].
      * intros c. rewrite dict_get_set. apply decide_ext. naive_solver.
      * rewrite decide_True; [lia|done].
  - intros [= <-] Hnd. simpl. split_and!; [done| |].
    + intros c. rewrite decide_False; [done|]. by intros [? _].
    + rewrite decide_False; [lia|]. by intros [? _].
Qed.

Lemma prepare_loop_spec final raw st st' :
  prepare_loop final st raw = inr st' →
  NoDup st.1.*1 →
  NoDup st'.1.*1
  ∧ (∀ c, dict_get st'.1 c
          = match (if decide (c ∈ final) then last_annotation raw c else None)
            with
            | Some d => Some (prepared d)
            | None => dict_get st.1 c
            end)
  ∧ st'.2 = st.2 + length (filter (λ it, it.1 ∈ final ∧ unmapped it.2) raw).
Proof.
  revert st. induction raw as [|item rest IH]; intros st; simpl.
  - intros [= <-] Hnd. split_and!; [done| |lia].
    intros c. by case_decide.
  - destruct (prepare_step final st item) as [e|st1] eqn:Hstep; [done|].
    intros Hloop Hnd.
    destruct (prepare_step_spec _ _ _ _ Hstep Hnd) as (Hnd1 & Hget1 & Hinv1).
    destruct (IH _ Hloop Hnd1) as (Hnd' & Hget' & Hinv').
    split_and!; [done| |].
    + intros c. rewrite Hget', Hget1. destruct item as [k d]. simpl.
      destruct (decide (c ∈ final)) as [Hc|Hc].
      * destruct (last_annotation rest c); [done|].
        destruct (decide (k = c)) as [->|Hne].
        -- by rewrite decide_True.
        -- rewrite decide_False; [done|]. by intros [_ ?].
      * rewrite decide_False; [done|]. intros [? <-]. done.
    + rewrite Hinv', Hinv1, filter_cons.
      case_decide; simpl; set (n := length _); clearbody n; lia.
Qed.

Lemma prepare_loop_order final1 final2 st raw :
  final1 = final2 → prepare_loop final1 st raw = prepare_loop final2 st raw.
Proof. by intros ->. Qed.

(** ** Binding the relations *)

Lemma bind_step_unfold recs st k d :
  bind_step container_str recs st (k, d)
  = match asn_relation (code d) with
    | None => st
    | Some r =>
        match bind_target recs k with
        | Some p =>
            if has_edge (graph st) p k
            then mkBindState
                   (set_edge_attr (graph st) p k "relation" (JStr r))
                   (S (asn_added_count st)) (asn_missing_edge_count st)
            else mkBindState (graph st) (asn_added_count st)
                             (S (asn_missing_edge_count st))
        | None => mkBindState (graph st) (asn_added_count st)
                              (S (asn_missing_edge_count st))
        end
    end.
Proof. done. Qed.

Lemma relabel_fresh recs l p c a :
  c ∉ l.*1 → relabel recs l p c a = a.
Proof. intros Hc. unfold relabel. by rewrite dict_get_None. Qed.

Local Ltac count :=
  simpl; rewrite ?Nat.add_0_r;
  match goal with
  | H : ?c = length _ |- S ?c = _ => rewrite H
  | H : ?c = length _ |- ?c = _ => rewrite H
  end;
  set (n := length _); clearbody n; lia.

Lemma bind_fold_spec recs G1 l :
  NoDup l.*1 →
  nodes (graph (foldl (bind_step container_str recs) (mkBindState G1 0 0) l))
    = nodes G1
  ∧ (∀ p c,
      edges (graph (foldl (bind_step container_str recs)
                          (mkBindState G1 0 0) l)) !! (p, c)
      = relabel recs l p c (edges G1 !! (p, c)))
  ∧ asn_added_count (foldl (bind_step container_str recs)
                           (mkBindState G1 0 0) l)
    = length (filter (λ a, applies G1 recs a = true) l)
  ∧ asn_missing_edge_count (foldl (bind_step container_str recs)
                                  (mkBindState G1 0 0) l)
    = length (filter (λ a, misses G1 recs a = true) l).
Proof.
  induction l as [|[k d] l IH] using rev_ind; intros Hnd.
  - simpl. split_and!; done.
  - rewrite fmap_app in Hnd. apply NoDup_app in Hnd as (Hnd & Hk & _).
    assert (k ∉ l.*1) as Hfresh.
    { intros Hin. apply (Hk k Hin). simpl. by left. }
    destruct (IH Hnd) as (IHn & IHe & IHa & IHm). clear IH Hk.
    rewrite foldl_app, !filter_app, !length_app. cbn [foldl].
    set (st := foldl (bind_step container_str recs) (mkBindState G1 0 0) l)
      in *.
    rewrite bind_step_unfold, !filter_cons, !filter_nil.
    assert (∀ p, has_edge (graph st) p k = has_edge G1 p k) as Hhas.
    { intros p. unfold has_edge. by rewrite IHe, relabel_fresh. }
    assert (∀ p c a, c ≠ k →
              relabel recs (l ++ [(k, d)]) p c a = relabel recs l p c a)
      as Hother.
    { intros p c a Hne. unfold relabel.
      by rewrite dict_get_snoc, decide_False by done. }
    assert (applies G1 recs (k, d)
            = match asn_relation (code d) with
              | Some _ => match bind_target recs k with
                          | Some p => has_edge G1 p k
                          | None => false
                          end
              | None => false
              end) as -> by done.
    assert (misses G1 recs (k, d)
            = match asn_relation (code d) with
              | Some _ => negb match bind_target recs k with
                               | Some p => has_edge G1 p k
                               | None => false
                               end
              | None => false
              end) as -> by done.
    destruct (asn_relation (code d)) as [r|] eqn:Hr.
    + destruct (bind_target recs k) as [q|] eqn:Hq.
      * rewrite Hhas. destruct (has_edge G1 q k) eqn:Hedge; simpl.
        -- split_and!; [done| |count..].
           intros p c. rewrite lookup_alter.
           destruct (decide ((q, k) = (p, c))) as [[= -> ->]|Hne].
           ++ rewrite IHe, relabel_fresh by done.
              unfold relabel.
              by rewrite dict_get_snoc, decide_True, Hr, Hq, decide_True.
           ++ rewrite IHe.
              destruct (decide (c = k)) as [->|Hck]; [|by rewrite Hother].
              rewrite relabel_fresh by done. unfold relabel.
              rewrite dict_get_snoc, decide_True, Hr, Hq by done.
              rewrite decide_False; [done|]. congruence.
        -- split_and!; [done| |count..].
           intros p c. rewrite IHe.
           destruct (decide (c = k)) as [->|Hck]; [|by rewrite Hother].
           rewrite relabel_fresh by done. unfold relabel.
           rewrite dict_get_snoc, decide_True, Hr, Hq by done.
           case_decide as Hp; [|done]. simplify_eq.
           unfold has_edge in Hedge. apply bool_decide_eq_false in Hedge.
           destruct (edges G1 !! (p, k)); [|done]. by destruct Hedge.
      * simpl. split_and!; [done| |count..].
        intros p c. rewrite IHe.
        destruct (decide (c = k)) as [->|Hck]; [|by rewrite Hother].
        rewrite relabel_fresh by done. unfold relabel.
        rewrite dict_get_snoc, decide_True, Hr, Hq by done.
        by rewrite decide_False.
    + simpl. split_and!; [done| |count..].
      intros p c. rewrite IHe.
      destruct (decide (c = k)) as [->|Hck]; [|by rewrite Hother].
      rewrite relabel_fresh by done. unfold relabel.
      by rewrite dict_get_snoc, decide_True, Hr.
Qed.

(** ** The assembled graph *)

Lemma edge_into_for_graph O final all c :
  c ∈ final →
  edge_into final (utterances_for_graph O final all) c = edge_into final all c.
Proof. intros Hc. unfold edge_into. by rewrite index_for_graph. Qed.

Lemma reply_graph_spec O final all :
  (∀ n, nodes (reply_graph container_str O final
                 (utterances_for_graph O final all)).1 !! n
        = if decide (n ∈ final)
          then Some (node_attributes container_str (index all n)) else None)
  ∧ (∀ p c,
      edges (reply_graph container_str O final
               (utterances_for_graph O final all)).1 !! (p, c)
      = if decide (c ∈ final ∧ edge_into final all c = Some p)
        then Some reply_attr else None)
  ∧ (reply_graph container_str O final
       (utterances_for_graph O final all)).2
    = length (filter (λ c, is_Some (edge_into final all c)) (elements final)).
Proof.
  unfold reply_graph.
  set (recs := utterances_for_graph O final all).
  destruct (node_fold_spec recs (set_iter O final)) as [He Hn].
  destruct (edge_fold_spec final recs
              (foldl (node_step container_str recs) empty_graph
                     (set_iter O final))
              (set_iter O final)) as (Hn' & He' & Hc').
  { intros n Hin. rewrite Hn, decide_True by (by apply elem_of_set_iter).
    eauto. }
  { done. }
  { intros c. by rewrite elem_of_set_iter. }
  split_and!.
  - intros n. rewrite Hn', Hn. unfold recs.
    destruct (decide (n ∈ final)) as [Hin|Hin].
    + rewrite decide_True by (by apply elem_of_set_iter).
      by rewrite index_for_graph.
    + rewrite decide_False; [done|]. by rewrite elem_of_set_iter.
  - intros p c. rewrite He'. apply decide_ext. rewrite elem_of_set_iter.
    split; intros [Hc Hp]; (split; [done|]).
    + unfold recs in Hp. by rewrite edge_into_for_graph in Hp.
    + unfold recs. by rewrite edge_into_for_graph.
  - rewrite Hc'. rewrite <- (set_iter_perm O final).
    f_equal. apply filter_ext_in.
    intros c Hc%elem_of_set_iter. unfold recs.
    by rewrite edge_into_for_graph.
Qed.

Lemma prepared_keys_final final raw annotations inv c :
  prepare_loop final ([], 0) raw = inr (annotations, inv) →
  c ∉ final → dict_get annotations c = None.
Proof.
  intros Hloop Hc.
  destruct (prepare_loop_spec _ _ _ _ Hloop) as (_ & Hget & _);
    [apply NoDup_nil_2|].
  simpl in Hget. by rewrite Hget, decide_False.
Qed.

Lemma relabel_for_graph O final all raw annotations inv p c a :
  prepare_loop final ([], 0) raw = inr (annotations, inv) →
  relabel (utterances_for_graph O final all) annotations p c a
  = relabel all annotations p c a.
Proof.
  intros Hloop. unfold relabel, bind_target.
  destruct (decide (c ∈ final)) as [Hc|Hc].
  - by rewrite index_for_graph.
  - by rewrite (prepared_keys_final _ _ _ _ _ Hloop Hc).
Qed.

Lemma assemble_spec O raw ids all G k :
  assemble container_str O raw ids all = Returned G k →
  ∃ annotations,
    prepare_loop (final_node_ids container_str O ids all) ([], 0) raw
      = inr (annotations, invalid_relations k)
    ∧ (∀ n, nodes G !! n
            = if decide (n ∈ final_node_ids container_str O ids all)
              then Some (node_attributes container_str (index all n))
              else None)
    ∧ (∀ p c, edges G !! (p, c)
              = relabel all annotations p c
                  (reply_edge (final_node_ids container_str O ids all)
                              all p c))
    ∧ edges_added k
      = length (filter
                  (λ c, is_Some
                          (edge_into (final_node_ids container_str O ids all)
                                     all c))
                  (elements (final_node_ids container_str O ids all))).
Proof.
  unfold assemble.
  set (final := final_node_ids container_str O ids all).
  destruct (prepare_loop final ([], 0) raw) as [e|[annotations inv]] eqn:Hloop;
    [done|].
  destruct (reply_graph_spec O final all) as (Hn & He & Hc).
  destruct (reply_graph container_str O final
              (utterances_for_graph O final all)) as [G1 ec].
  simpl in Hn, He, Hc. intros [= <- <-]. simpl.
  destruct (prepare_loop_spec _ _ _ _ Hloop) as (Hnd & _ & _);
    [apply NoDup_nil_2|]. simpl in Hnd.
  destruct (bind_fold_spec (utterances_for_graph O final all) G1
              annotations Hnd) as (Hn' & He' & _ & _).
  exists annotations. split_and!; [done| | |done].
  - intros n. by rewrite Hn', Hn.
  - intros p c. rewrite He', He.
    by rewrite (relabel_for_graph _ _ _ _ _ _ _ _ _ Hloop).
Qed.

Lemma build_returned O a c G k :
  build_conversation_graph container_str O a c = Returned G k →
  ∃ st all,
    load_annotations container_str a = Some st
    ∧ annotation_ids st ≠ ∅
    ∧ load_utterances container_str c = Some all
    ∧ dom all ≠ (∅ : gset string)
    ∧ assemble container_str O (valid_annotations st) (annotation_ids st) all
      = Returned G k.
Proof.
  unfold build_conversation_graph.
  destruct (load_annotations container_str a) as [st|]; [|done].
  case_bool_decide; [done|].
  destruct (load_utterances container_str c) as [all|]; [|done].
  case_bool_decide; [done|]. intros Hasm. by exists st, all.
Qed.

(** ** Independence of the iteration order *)

Lemma reply_graph_order O1 O2 final all :
  reply_graph container_str O1 final (utterances_for_graph O1 final all)
  = reply_graph container_str O2 final (utterances_for_graph O2 final all).
Proof.
  destruct (reply_graph_spec O1 final all) as (Hn1 & He1 & Hc1).
  destruct (reply_graph_spec O2 final all) as (Hn2 & He2 & Hc2).
  destruct (reply_graph container_str O1 final
              (utterances_for_graph O1 final all)) as [[ns1 es1] c1].
  destruct (reply_graph container_str O2 final
              (utterances_for_graph O2 final all)) as [[ns2 es2] c2].
  simpl in *. f_equal; [f_equal|congruence].
  - apply map_eq. intros n. by rewrite Hn1, Hn2.
  - apply map_eq. intros [p c]. by rewrite He1, He2.
Qed.

Lemma assemble_order O1 O2 raw ids all :
  keyed all →
  assemble container_str O1 raw ids all = assemble container_str O2 raw ids all.
Proof.
  intros Hk. unfold assemble.
  rewrite (final_node_ids_order O1 O2) by done.
  set (final := final_node_ids container_str O2 ids all).
  rewrite (reply_graph_order O1 O2).
  by rewrite (utterances_for_graph_order O1 O2).
Qed.

Lemma build_order O1 O2 a c :
  build_conversation_graph container_str O1 a c
  = build_conversation_graph container_str O2 a c.
Proof.
  unfold build_conversation_graph.
  destruct (load_annotations container_str a) as [st|]; [|done].
  case_bool_decide; [done|].
  destruct (load_utterances container_str c) as [all|] eqn:Hall; [|done].
  case_bool_decide; [done|].
  apply assemble_order. by eapply load_utterances_keyed.
Qed.

(** ** Node selection: the nodes of the returned graph *)

Lemma elem_of_annotation_ids a st n :
  load_annotations container_str a = Some st →
  n ∈ annotation_ids st ↔ annotated st n.
Proof.
  intros Hload. rewrite (load_annotations_ids _ _ Hload).
  rewrite elem_of_list_to_set, list_elem_of_fmap. unfold annotated.
  split.
  - intros ([n' d] & -> & Hin). by exists d.
  - intros (d & Hin). by exists (n, d).
Qed.

Lemma dom_nodes_final O raw ids all G k :
  assemble container_str O raw ids all = Returned G k →
  dom (nodes G) = final_node_ids container_str O ids all.
Proof.
  intros (annotations & _ & Hn & _)%assemble_spec.
  apply set_eq. intros n. rewrite elem_of_dom, Hn.
  case_decide; split; done.
Qed.

(** C1.  Whenever [build_conversation_graph] returns a graph, its node set
    is the final node set and lies inside the keys of the loaded utterance
    mapping; a node is in it exactly when it is an annotated utterance of
    the corpus or the in-corpus parent, through the reply-to reference, of
    one. *)
Theorem nodes_are_annotated_or_parents O a c G k :
  build_conversation_graph container_str O a c = Returned G k →
  ∃ st all,
    load_annotations container_str a = Some st
    ∧ load_utterances container_str c = Some all
    ∧ dom (nodes G) = final_node_ids container_str O (annotation_ids st) all
    ∧ dom (nodes G) ⊆ dom all
    ∧ ∀ n, n ∈ dom (nodes G)
           ↔ (annotated st n ∧ n ∈ dom all)
             ∨ ∃ child, (annotated st child ∧ child ∈ dom all)
                        ∧ corpus_parent all child n.
Proof.
  intros (st & all & Hst & _ & Hall & _ & Hasm)%build_returned.
  pose proof (load_utterances_keyed _ _ Hall) as Hk.
  exists st, all. rewrite (dom_nodes_final _ _ _ _ _ _ Hasm).
  split_and!; [done..|by apply final_node_ids_in_corpus|].
  intros n. rewrite elem_of_final_node_ids by done.
  rewrite (elem_of_annotation_ids _ _ _ Hst).
  by setoid_rewrite (elem_of_annotation_ids _ _ _ Hst).
Qed.

(** C9.  The graph and the counters do not depend on the order in which the
    interpreter iterates over the sets: two runs on the same inputs end the
    same way, with the same nodes, edges and attributes. *)
Theorem same_inputs_same_graph O1 O2 a c :
  build_conversation_graph container_str O1 a c
  = build_conversation_graph container_str O2 a c.
Proof. apply build_order. Qed.

(** C7.  An annotation source that decodes but yields no annotation
    identifier, one that does not decode to a list included, makes the
    function return [None]; a decoded value that is not a list is loaded as
    the empty annotation set. *)
Theorem no_annotation_ids_no_graph O a c :
  yields_no_ids a ∨ (∃ v, a = Decoded v ∧ is_list v = false) →
  build_conversation_graph container_str O a c = ReturnedNone
  ∧ yields_no_ids a.
Proof.
  intros H.
  assert (yields_no_ids a) as (st & Hst & Hids).
  { destruct H as [?|(v & -> & Hv)]; [done|].
    exists (mkAnnState [] ∅ []). by destruct v. }
  split; [|by exists st].
  unfold build_conversation_graph. rewrite Hst.
  by rewrite bool_decide_eq_true_2.
Qed.

(** ** Edges *)

Lemma relabel_is_Some recs annotations p c a :
  is_Some (relabel recs annotations p c a) ↔ is_Some a.
Proof.
  unfold relabel. destruct (dict_get annotations c) as [d|]; [|done].
  destruct (asn_relation (code d)); [|done].
  case_decide; [|done]. apply fmap_is_Some.
Qed.

Lemma is_Some_reply_edge final all p c :
  final ⊆ dom all →
  is_Some (reply_edge final all p c)
  ↔ c ∈ final ∧ p ∈ final ∧ replies_to all c p.
Proof.
  intros Hsub. unfold reply_edge, replies_to.
  case_decide as H; rewrite edge_into_parent in H; split.
  - intros _. destruct H as (Hc & Hp & Hpf). split_and!; [done..|].
    apply Hsub, elem_of_dom in Hc as [d Hd]. exists d. split; [done|].
    unfold index in Hp. by rewrite Hd in Hp.
  - eauto.
  - by intros [? ?].
  - intros (Hc & Hp & d & Hd & Hpar). destruct H. split_and!; [done| |done].
    unfold index. by rewrite Hd.
Qed.

Lemma edges_of_assembled O raw ids all G k p c :
  keyed all →
  assemble container_str O raw ids all = Returned G k →
  is_Some (edges G !! (p, c))
  ↔ c ∈ dom (nodes G) ∧ p ∈ dom (nodes G) ∧ replies_to all c p.
Proof.
  intros Hk Hasm. rewrite (dom_nodes_final _ _ _ _ _ _ Hasm).
  destruct (assemble_spec _ _ _ _ _ _ Hasm) as (annotations & _ & _ & He & _).
  rewrite He, relabel_is_Some.
  apply is_Some_reply_edge. by apply final_node_ids_in_corpus.
Qed.

(** C5.  The edge set of the returned graph has an edge from [p] to [c]
    exactly when [c] is a node whose record carries a parent reference that
    reads, as a string, [p], and [p] is a node too.  These are the edges of
    the graph as it stands after the edge loop, where every one of them
    carries the relation [reply]; so no node has two incoming edges, a node
    whose parent is absent or not selected has none, and the edge counter
    is the number of nodes with a selected parent. *)
Theorem edges_follow_parent_references O a c G k :
  build_conversation_graph container_str O a c = Returned G k →
  ∃ st all,
    load_annotations container_str a = Some st
    ∧ load_utterances container_str c = Some all
    ∧ (∀ p ch, is_Some (edges G !! (p, ch))
               ↔ ch ∈ dom (nodes G) ∧ p ∈ dom (nodes G) ∧ replies_to all ch p)
    ∧ (∀ p ch,
         edges (reply_graph container_str O (dom (nodes G))
                  (utterances_for_graph O (dom (nodes G)) all)).1 !! (p, ch)
         = if decide (is_Some (edges G !! (p, ch)))
           then Some reply_attr else None)
    ∧ (∀ p p' ch, is_Some (edges G !! (p, ch)) →
                  is_Some (edges G !! (p', ch)) → p = p')
    ∧ edges_added k
      = length (filter (λ ch, is_Some (edge_into (dom (nodes G)) all ch))
                       (elements (dom (nodes G)))).
Proof.
  intros (st & all & Hst & _ & Hall & _ & Hasm)%build_returned.
  pose proof (load_utterances_keyed _ _ Hall) as Hk.
  pose proof (λ p ch, edges_of_assembled O _ _ _ _ _ p ch Hk Hasm) as Hedge.
  exists st, all. split_and!; [done..| | |].
  - intros p ch.
    destruct (reply_graph_spec O (dom (nodes G)) all) as (_ & -> & _).
    apply decide_ext. rewrite Hedge, <- is_Some_reply_edge.
    + unfold reply_edge. case_decide; [|by split; [|intros [? ?]]].
      split; eauto.
    + rewrite (dom_nodes_final _ _ _ _ _ _ Hasm).
      by apply final_node_ids_in_corpus.
  - intros p p' ch. rewrite !Hedge.
    intros (_ & _ & d & Hd & Hp) (_ & _ & d' & Hd' & Hp'). congruence.
  - rewrite (dom_nodes_final _ _ _ _ _ _ Hasm).
    by destruct (assemble_spec _ _ _ _ _ _ Hasm) as (? & _ & _ & _ & ->).
Qed.

(** ** Relation labels *)

Lemma asn_relation_Some v r :
  asn_relation v = Some r → v = JStr r ∧ r ∈ relation_words.
Proof.
  destruct v as [| | | |s| |]; simpl; try done.
  destruct (String.eqb_spec s "attack") as [->|];
    [intros [= <-]; split; [done|set_solver]|].
  destruct (String.eqb_spec s "support") as [->|];
    [intros [= <-]; split; [done|set_solver]|].
  destruct (String.eqb_spec s "neutral") as [->|];
    [intros [= <-]; split; [done|set_solver]|].
  done.
Qed.

Lemma relation_map_get_Some v m :
  relation_map_get v = inr (Some m) → asn_relation (JStr m) = Some m.
Proof.
  destruct v as [| | | |s| |]; simpl; try done.
  destruct (String.eqb s "a"); [by intros [= <-]|].
  destruct (String.eqb s "s"); [by intros [= <-]|].
  destruct (String.eqb s "n"); [by intros [= <-]|done].
Qed.

Lemma code_prepared d m :
  relation_map_get (code d) = inr (Some m) → code (prepared d) = JStr m.
Proof.
  intros Hm. unfold prepared. rewrite Hm. unfold code, get.
  by rewrite lookup_insert_eq.
Qed.

Lemma prepared_unmapped d : unmapped d → prepared d = d.
Proof. unfold unmapped, prepared. by intros ->. Qed.

Lemma edges_labelled O raw ids all G k p c attrs :
  assemble container_str O raw ids all = Returned G k →
  edges G !! (p, c) = Some attrs →
  attrs = relation_attr (edge_label all raw p c).
Proof.
  intros Hasm.
  destruct (assemble_spec _ _ _ _ _ _ Hasm) as (annotations & Hloop & _ & -> & _).
  destruct (prepare_loop_spec _ _ _ _ Hloop) as (_ & Hget & _);
    [apply NoDup_nil_2|]. simpl in Hget.
  unfold reply_edge. case_decide as Hedge.
  - destruct Hedge as [Hc _]. unfold relabel, edge_label.
    rewrite Hget, decide_True by done.
    destruct (last_annotation raw c) as [d|]; [|by intros [= <-]].
    destruct (asn_relation (code (prepared d))) as [r|]; [|by intros [= <-]].
    case_decide; simpl; intros [= <-]; [|done].
    unfold reply_attr, relation_attr. by rewrite insert_singleton_eq.
  - intros Hsome.
    assert (is_Some (@None (gmap string json))) as [? ?]; [|done].
    eapply relabel_is_Some. by rewrite Hsome.
Qed.

Lemma edge_label_words all raw p c :
  edge_label all raw p c ∈ "reply" :: relation_words.
Proof.
  unfold edge_label. destruct (last_annotation raw c) as [d|]; [|by left].
  destruct (asn_relation (code (prepared d))) as [r|] eqn:Hr; [|by left].
  case_decide; [|by left]. right. by apply asn_relation_Some in Hr as [_ ?].
Qed.

(** Unknown codes other than the relation words.  Whenever a graph is
    returned: the invalid-relation counter is the number of kept annotations
    that are written for a node of the graph and whose raw code is outside
    [a], [s], [n] (an annotation for an identifier outside the graph is not
    looked at); such an annotation, when it is the last one for its node, is
    kept unchanged in the annotation dictionary; every edge carries exactly
    one attribute, its relation, which is one of reply, attack, support,
    neutral; an edge whose child has for last annotation one with a raw code
    outside [a], [s], [n] that is not itself a relation word carries reply;
    and an edge carrying another relation than reply has a child whose last
    annotation, unless its raw code is itself a relation word, has a raw
    code that maps to that relation. *)
Theorem unknown_codes_are_inert O a c G k :
  build_conversation_graph container_str O a c = Returned G k →
  ∃ st all annotations,
    load_annotations container_str a = Some st
    ∧ load_utterances container_str c = Some all
    ∧ prepare_loop (dom (nodes G)) ([], 0) (valid_annotations st)
      = inr (annotations, invalid_relations k)
    ∧ invalid_relations k
      = length (filter (λ it, it.1 ∈ dom (nodes G) ∧ unmapped it.2)
                       (valid_annotations st))
    ∧ (∀ n d, n ∈ dom (nodes G) →
              last_annotation (valid_annotations st) n = Some d →
              unmapped d → dict_get annotations n = Some d)
    ∧ (∀ p ch attrs, edges G !! (p, ch) = Some attrs →
         ∃ r, attrs = relation_attr r ∧ r ∈ "reply" :: relation_words)
    ∧ (∀ p ch attrs d, edges G !! (p, ch) = Some attrs →
         last_annotation (valid_annotations st) ch = Some d →
         unmapped d → asn_relation (code d) = None →
         attrs = relation_attr "reply")
    ∧ (∀ p ch r, edges G !! (p, ch) = Some (relation_attr r) →
         r ≠ "reply" →
         ∃ d, last_annotation (valid_annotations st) ch = Some d
              ∧ (asn_relation (code d) = None →
                 relation_map_get (code d) = inr (Some r))).
Proof.
  intros (st & all & Hst & _ & Hall & _ & Hasm)%build_returned.
  destruct (assemble_spec _ _ _ _ _ _ Hasm) as (annotations & Hloop & _).
  rewrite <- (dom_nodes_final _ _ _ _ _ _ Hasm) in Hloop.
  destruct (prepare_loop_spec _ _ _ _ Hloop) as (_ & Hget & Hinv);
    [apply NoDup_nil_2|]. simpl in Hget, Hinv.
  pose proof (λ p ch attrs, edges_labelled _ _ _ _ _ _ p ch attrs Hasm)
    as Hlabel.
  exists st, all, annotations. split_and!; [done..| | | |].
  - intros n d Hn Hlast Hun.
    by rewrite Hget, decide_True, Hlast, prepared_unmapped.
  - intros p ch attrs Hedge. exists (edge_label all (valid_annotations st) p ch).
    split; [by apply Hlabel|apply edge_label_words].
  - intros p ch attrs d Hedge Hlast Hun Hword.
    rewrite (Hlabel _ _ _ Hedge). unfold edge_label.
    by rewrite Hlast, prepared_unmapped, Hword.
  - intros p ch r Hedge Hr. apply Hlabel in Hedge.
    assert (r = edge_label all (valid_annotations st) p ch) as Hr'.
    { unfold relation_attr in Hedge.
      apply (f_equal (λ m : gmap string json, m !! "relation")) in Hedge.
      rewrite !lookup_singleton_eq in Hedge. congruence. }
    unfold edge_label in Hr'.
    destruct (last_annotation (valid_annotations st) ch) as [d|]; [|done].
    exists d. split; [done|]. intros Hword.
    destruct (asn_relation (code (prepared d))) as [r'|] eqn:Hasn; [|done].
    case_decide; [|done]. subst r'.
    destruct (relation_map_get (code d)) as [e|[m|]] eqn:Hm.
    + unfold prepared in Hasn. rewrite Hm in Hasn. congruence.
    + rewrite (code_prepared _ _ Hm) in Hasn.
      rewrite (relation_map_get_Some _ _ Hm) in Hasn. congruence.
    + unfold prepared in Hasn. rewrite Hm in Hasn. congruence.
Qed.

(** ** The delta flag *)

Lemma append_nil (b : string) : ("" ++ b)%string = b.
Proof. done. Qed.

Lemma append_cons x (a b : string) :
  (String x a ++ b)%string = String x (a ++ b)%string.
Proof. done. Qed.

Lemma prefix_spec a s :
  String.prefix a s = true ↔ ∃ post, s = (a ++ post)%string.
Proof.
  revert s. induction a as [|x a IH]; intros s.
  - split; [intros _; by exists s|]. intros _. by destruct s.
  - destruct s as [|y s]; simpl.
    + split; [done|]. intros [post Hpost]. by rewrite append_cons in Hpost.
    + destruct (Ascii.ascii_dec x y) as [->|Hne].
      * rewrite IH. split; intros [post Hpost]; exists post.
        -- by rewrite append_cons, Hpost.
        -- rewrite append_cons in Hpost. congruence.
      * split; [done|]. intros [post Hpost].
        rewrite append_cons in Hpost. congruence.
Qed.

Lemma contains_spec needle text :
  contains needle text = true
  ↔ ∃ pre post, text = (pre ++ needle ++ post)%string.
Proof.
  induction text as [|y text IH]; cbn [contains].
  - rewrite orb_false_r, prefix_spec. split.
    + intros [post ->]. by exists "", post.
    + intros (pre & post & Heq). destruct pre as [|z pre].
      * by exists post.
      * by rewrite append_cons in Heq.
  - rewrite orb_true_iff, IH, prefix_spec. split.
    + intros [[post ->]|(pre & post & ->)].
      * by exists "", post.
      * by exists (String y pre), post.
    + intros (pre & post & Heq). destruct pre as [|z pre].
      * left. by exists post.
      * right. exists pre, post. rewrite append_cons in Heq. congruence.
Qed.

Lemma lower_app a b : lower (a ++ b) = (lower a ++ lower b)%string.
Proof.
  induction a as [|x a IH]; [done|].
  rewrite append_cons. simpl. by rewrite IH, append_cons.
Qed.

Lemma lower_split s a b :
  lower s = (a ++ b)%string →
  ∃ s1 s2, s = (s1 ++ s2)%string ∧ lower s1 = a ∧ lower s2 = b.
Proof.
  revert s. induction a as [|x a IH]; intros s.
  - intros Hb. by exists "", s.
  - rewrite append_cons. destruct s as [|y s]; simpl; [done|].
    intros [= Hx Hs].
    destruct (IH _ Hs) as (s1 & s2 & -> & <- & <-).
    exists (String y s1), s2. simpl. by rewrite Hx.
Qed.

Lemma delta_marker_spec text :
  delta_marker text = true ↔ has_delta_marker text.
Proof.
  unfold delta_marker, has_delta_marker.
  rewrite orb_true_iff, !contains_spec. apply or_iff_compat_l. split.
  - intros (pre' & post' & Heq).
    apply lower_split in Heq as (pre & rest & -> & _ & Heq).
    apply lower_split in Heq as (mid & post & -> & Hmid & _).
    by exists pre, mid, post.
  - intros (pre & mid & post & -> & Hmid).
    exists (lower pre), (lower post). by rewrite !lower_app, Hmid.
Qed.

Lemma node_attributes_delta d :
  node_attributes container_str d !! "delta"
  = Some (JStr (if has_meta_dict d && delta_marker (text_of d)
                then "True" else "False")).
Proof.
  unfold node_attributes. rewrite !lookup_insert_ne by done.
  rewrite lookup_insert_eq. unfold delta_awarded. fold (text_of d).
  by destruct (has_meta_dict d), (delta_marker (text_of d)).
Qed.

(** C4, as the code has it.  The delta attribute of every node is the
    string form of: the record has a ['meta'] field that is a mapping (an
    empty one included) and its text carries the marker; a record without
    such a field gets ["False"] whatever its text. *)
Theorem delta_flag_of_nodes O a c G k :
  build_conversation_graph container_str O a c = Returned G k →
  ∃ all,
    load_utterances container_str c = Some all
    ∧ ∀ n attrs, nodes G !! n = Some attrs →
        ∃ d, all !! n = Some d
             ∧ attrs !! "delta"
               = Some (JStr (str (JBool (has_meta_dict d
                                         && delta_marker (text_of d)))))
             ∧ (delta_marker (text_of d) = true ↔ has_delta_marker (text_of d))
             ∧ (has_meta_dict d = true ↔ ∃ m, d !! "meta" = Some (JDict m)).
Proof.
  intros (st & all & Hst & _ & Hall & _ & Hasm)%build_returned.
  pose proof (load_utterances_keyed _ _ Hall) as Hk.
  exists all. split; [done|]. intros n attrs Hn.
  destruct (assemble_spec _ _ _ _ _ _ Hasm) as (_ & _ & Hnodes & _).
  rewrite Hnodes in Hn. case_decide as Hfin; [|done].
  apply final_node_ids_in_corpus, elem_of_dom in Hfin as [d Hd]; [|done].
  unfold index in Hn. rewrite Hd in Hn. simpl in Hn. injection Hn as <-.
  exists d. split_and!; [done| |apply delta_marker_spec|].
  - rewrite node_attributes_delta.
    by destruct (has_meta_dict d && delta_marker (text_of d)).
  - unfold has_meta_dict. destruct (d !! "meta") as [[]|]; split; eauto;
      try done; by intros [? ?].
Qed.

(** ** Cycles *)

Lemma chain_ends_step all fuel c p :
  replies_to all c p → chain_ends all fuel c = true →
  ∃ fuel', fuel' < fuel ∧ chain_ends all fuel' p = true.
Proof.
  intros (d & Hd & Hp). destruct fuel as [|fuel']; simpl; [done|].
  rewrite Hd, Hp. intros Hends. exists fuel'. split; [lia|done].
Qed.

Lemma chain_ends_tc all fuel c c' :
  tc (replies_to all) c c' → chain_ends all fuel c = true →
  ∃ fuel', fuel' < fuel ∧ chain_ends all fuel' c' = true.
Proof.
  intros Htc. revert fuel. induction Htc as [c c' Hstep|c m c' Hstep _ IH];
    intros fuel Hends.
  - by eapply chain_ends_step.
  - destruct (chain_ends_step _ _ _ _ Hstep Hends) as (f1 & Hlt & Hf1).
    destruct (IH _ Hf1) as (f2 & Hlt' & Hf2). exists f2. split; [lia|done].
Qed.

Lemma chain_ends_no_cycle all fuel :
  (∀ c, c ∈ dom all → chain_ends all fuel c = true) → no_reply_cycle all.
Proof.
  intros Hends x Hcycle.
  assert (x ∈ dom all) as Hx.
  { apply tc_rtc_l with (x := x) in Hcycle; [|done].
    inversion Hcycle as [? ? (d & Hd & _)|? ? ? (d & Hd & _)]; subst;
      apply elem_of_dom; eauto. }
  specialize (Hends x Hx). clear Hx.
  induction (lt_wf fuel) as [fuel _ IH].
  destruct (chain_ends_tc _ _ _ _ Hcycle Hends) as (fuel' & Hlt & Hends').
  by apply (IH fuel').
Qed.

Lemma edge_path_reply_path O raw ids all G k x y :
  keyed all →
  assemble container_str O raw ids all = Returned G k →
  tc (edge_rel G) x y → tc (replies_to all) y x.
Proof.
  intros Hk Hasm Htc. induction Htc as [x y Hedge|x m y Hedge _ IH].
  - apply tc_once.
    by apply (edges_of_assembled _ _ _ _ _ _ _ _ Hk Hasm) in Hedge as (_&_&?).
  - eapply tc_r; [done|].
    by apply (edges_of_assembled _ _ _ _ _ _ _ _ Hk Hasm) in Hedge as (_&_&?).
Qed.

(** C8, as the code has it.  When no utterance of the corpus is reached
    from itself along reply-to references, the returned graph has no
    directed cycle and no self-loop, and no node has two incoming edges: it
    is a forest, which need not be connected. *)
Theorem forest_when_corpus_has_no_reply_cycle O a c G k all :
  build_conversation_graph container_str O a c = Returned G k →
  load_utterances container_str c = Some all →
  no_reply_cycle all →
  acyclic G
  ∧ (∀ x, ¬ edge_rel G x x)
  ∧ (∀ p p' ch, edge_rel G p ch → edge_rel G p' ch → p = p').
Proof.
  intros (st & all' & Hst & _ & Hall & _ & Hasm)%build_returned Hall' Hno.
  assert (all' = all) as -> by congruence.
  pose proof (load_utterances_keyed _ _ Hall) as Hk.
  assert (acyclic G) as Hacyc.
  { intros x Hcycle. apply (Hno x). by eapply edge_path_reply_path. }
  split_and!; [done| |].
  - intros x Hx. apply (Hacyc x). by apply tc_once.
  - intros p p' ch.
    intros (_ & _ & d & Hd & Hp)%(edges_of_assembled _ _ _ _ _ _ _ _ Hk Hasm).
    intros (_ & _ & d' & Hd' & Hp')%(edges_of_assembled _ _ _ _ _ _ _ _ Hk Hasm).
    congruence.
Qed.

(** ** Exceptions and counters *)

(** The dictionary lookups [all_utterances_dict[node_id]] of line 123 and
    [utterances_for_graph[...]] of lines 151, 179 and 199 find their key: no
    [KeyError] is raised. *)
Lemma no_key_error O ids all n :
  keyed all →
  n ∈ final_node_ids container_str O ids all →
  is_Some (all !! n)
  ∧ utterances_for_graph O (final_node_ids container_str O ids all) all !! n
    = all !! n.
Proof.
  intros Hk Hn.
  pose proof (final_node_ids_in_corpus O ids all Hk n Hn) as [d Hd]%elem_of_dom.
  split; [eauto|].
  rewrite utterances_for_graph_lookup, decide_True by done.
  unfold index. by rewrite Hd.
Qed.

(** The only exception that leaves the function is the [TypeError] of line
    134, raised for an annotation of a graph node whose relation code is a
    list or a dictionary. *)
Lemma prepare_loop_raises final st raw e :
  prepare_loop final st raw = inl e →
  ∃ it, it ∈ raw ∧ it.1 ∈ final ∧ relation_map_get (code it.2) = inl e.
Proof.
  revert st. induction raw as [|[k d] rest IH]; intros st; simpl; [done|].
  destruct st as [annotations inv]. unfold prepare_step.
  case_bool_decide as Hk.
  - change (get d "reply_relation") with (code d).
    destruct (relation_map_get (code d)) as [e'|[m|]] eqn:Hm.
    + intros Heq. exists (k, d). split; [by left|]. simpl.
      split; [done|congruence].
    + intros (it & Hin & Hit)%IH. exists it. split; [by right|done].
    + intros (it & Hin & Hit)%IH. exists it. split; [by right|done].
  - intros (it & Hin & Hit)%IH. exists it. split; [by right|done].
Qed.

Lemma build_raises O a c e :
  build_conversation_graph container_str O a c = Raised e →
  ∃ st it, load_annotations container_str a = Some st
           ∧ it ∈ valid_annotations st
           ∧ relation_map_get (code it.2) = inl e.
Proof.
  unfold build_conversation_graph.
  destruct (load_annotations container_str a) as [st|]; [|done].
  case_bool_decide; [done|].
  destruct (load_utterances container_str c) as [all|]; [|done].
  case_bool_decide; [done|]. unfold assemble.
  destruct (prepare_loop _ _ _) as [e'|[annotations inv]] eqn:Hloop.
  - intros Heq. assert (e' = e) as -> by congruence.
    apply prepare_loop_raises in Hloop as (it & Hin & _ & Hit).
    by exists st, it.
  - by destruct (reply_graph _ _ _ _).
Qed.

(** What the binding loop counts: every entry of the annotation dictionary
    whose stored relation is one of the three relation words is counted
    once, as applied or as missing its edge; no other entry is counted. *)
Lemma count_split {A} (f g h : A → bool) (l : list A) :
  (∀ x, h x = f x || g x) → (∀ x, f x && g x = false) →
  length (filter (λ x, f x = true) l) + length (filter (λ x, g x = true) l)
  = length (filter (λ x, h x = true) l).
Proof.
  intros Hor Hand. induction l as [|x l IH]; [done|].
  rewrite !filter_cons. specialize (Hor x). specialize (Hand x).
  destruct (f x), (g x), (h x); simpl in *; try done; lia.
Qed.

Lemma bind_counters O raw ids all G k :
  assemble container_str O raw ids all = Returned G k →
  ∃ annotations,
    prepare_loop (final_node_ids container_str O ids all) ([], 0) raw
      = inr (annotations, invalid_relations k)
    ∧ asn_added k + asn_missing_edge k
      = length (filter (λ ann, has_relation_word ann = true) annotations).
Proof.
  unfold assemble.
  set (final := final_node_ids container_str O ids all).
  destruct (prepare_loop final ([], 0) raw) as [e|[annotations inv]] eqn:Hloop;
    [done|].
  destruct (reply_graph container_str O final
              (utterances_for_graph O final all)) as [G1 ec].
  intros [= <- <-]. simpl.
  destruct (prepare_loop_spec _ _ _ _ Hloop) as (Hnd & _ & _);
    [apply NoDup_nil_2|]. simpl in Hnd.
  destruct (bind_fold_spec (utterances_for_graph O final all) G1
              annotations Hnd) as (_ & _ & -> & ->).
  exists annotations. split; [done|].
  apply count_split; intros [c d];
    unfold applies, misses, has_relation_word; simpl;
    destruct (asn_relation (code d)); try done;
    by destruct (edge_found G1 _ c).
Qed.

(** ** The examples *)

Lemma chain_run O :
  build_conversation_graph container_str O chain_annotations chain_corpus
  = Returned chain_graph (mkCounters 0 1 1 0).
Proof. rewrite (build_order O canonical_order). vm_compute; reflexivity. Qed.

(** C2.  On the corpus A <- B <- C with the single annotation of C by
    [a], the graph has exactly the nodes B and C and exactly the edge from
    B to C, which carries the relation attack; A is no node and no edge
    enters B. *)
Theorem chain_example O :
  build_conversation_graph container_str O chain_annotations chain_corpus
    = Returned chain_graph (mkCounters 0 1 1 0)
  ∧ dom (nodes chain_graph) = {["B"; "C"]}
  ∧ edges chain_graph = {[("B", "C") := {["relation" := JStr "attack"]}]}
  ∧ ("A" ∉ dom (nodes chain_graph))
  ∧ ∀ p, edges chain_graph !! (p, "B") = None.
Proof.
  assert (dom (nodes chain_graph) = {["B"; "C"]}) as Hdom
    by (vm_compute; reflexivity).
  split_and!.
  - apply chain_run.
  - exact Hdom.
  - reflexivity.
  - rewrite Hdom. set_solver.
  - intros p. simpl. apply lookup_singleton_ne. congruence.
Qed.

(** An item that is not a mapping ends the annotation loop, wherever it
    stands in the list. *)
Lemma annotation_loop_non_mapping st items :
  (∃ item, item ∈ items ∧ is_dict item = false) →
  annotation_loop container_str st items = None.
Proof.
  revert st. induction items as [|x items IH]; intros st (item & Hin & Hnd).
  - by inversion Hin.
  - simpl. apply elem_of_cons in Hin as [<-|Hin].
    + by destruct item.
    + destruct (annotation_step container_str st x) as [st'|]; [|done].
      apply IH. eauto.
Qed.

(** C6, at a failing input.  With the number 7 in front of the annotation
    of C the loader gives up, and the function returns [None]; without it,
    the same annotation builds the graph of the chain.  An item that is a
    mapping without identifier is passed over with a warning, as the claim
    says. *)
Theorem non_mapping_item_aborts O :
  load_annotations container_str number_item_annotations = None
  ∧ build_conversation_graph container_str O number_item_annotations
      chain_corpus = ReturnedNone
  ∧ build_conversation_graph container_str O chain_annotations chain_corpus
    = Returned chain_graph (mkCounters 0 1 1 0)
  ∧ (∃ st, load_annotations container_str no_id_annotations = Some st
           ∧ (valid_annotations st).*1 = ["C"]
           ∧ skipped_items st = [no_id_item])
  ∧ build_conversation_graph container_str O no_id_annotations chain_corpus
    = Returned chain_graph (mkCounters 0 1 1 0).
Proof.
  split_and!.
  - reflexivity.
  - reflexivity.
  - apply chain_run.
  - eexists. split; [vm_compute; reflexivity|]. by split.
  - rewrite (build_order O canonical_order). vm_compute; reflexivity.
Qed.

(** C10, at a failing input.  The annotation of the lone root C carries
    the word [attack], which the relation map does not know: it is counted
    as an invalid relation, and then counted again as an annotation whose
    edge is missing. *)
Theorem word_code_reaches_missing_edge_count O :
  relation_map_get (JStr "attack") = inr None
  ∧ build_conversation_graph container_str O word_annotations lone_corpus
    = Returned lone_graph (mkCounters 1 0 0 1).
Proof.
  split; [done|].
  rewrite (build_order O canonical_order). vm_compute; reflexivity.
Qed.

(** C3, at a failing input.  The annotation of C in the chain carries the
    word [attack], a code outside [a], [s], [n] that the relation map does
    not know.  It is counted as an invalid relation, and it is not inert: one
    relation is applied, and the edge from B carries the raw code [attack]
    as its relation. *)
Theorem word_code_is_applied O :
  relation_map_get (JStr "attack") = inr None
  ∧ build_conversation_graph container_str O word_annotations chain_corpus
    = Returned chain_graph (mkCounters 1 1 1 0)
  ∧ edges chain_graph !! ("B", "C") = Some (relation_attr "attack").
Proof.
  split; [done|]. split; [|done].
  rewrite (build_order O canonical_order). vm_compute; reflexivity.
Qed.

End Properties.

(** * The properties on the examples *)

Local Open Scope list_scope.

Lemma chain_ends_in_chain c :
  c ∈ dom chain_records → chain_ends plain_str chain_records 4 c = true.
Proof.
  assert (dom chain_records = {["A"; "B"; "C"]}) as ->
    by (vm_compute; reflexivity).
  rewrite !elem_of_union, !elem_of_singleton.
  intros [[->| ->]| ->]; vm_compute; reflexivity.
Qed.

(** The specification's wording of C4 fails on an utterance whose metadata
    mapping is empty: its text has the delta command and its flag is
    ["True"]. *)
Lemma empty_meta_still_checked :
  ¬ delta_needs_nonempty_meta plain_str canonical_order
      delta_annotations delta_corpus.
Proof.
  intros H.
  assert (build_conversation_graph plain_str canonical_order
            delta_annotations delta_corpus
          = Returned delta_graph (mkCounters 0 0 0 1)) as Hrun
    by (vm_compute; reflexivity).
  assert (load_utterances plain_str delta_corpus
          = Some {["X" := delta_record]}) as Hload
    by (vm_compute; reflexivity).
  specialize (H _ _ _ "X" _ delta_record Hrun Hload eq_refl eq_refl).
  vm_compute in H. discriminate.
Qed.

(** The specification's wording of C8 fails on an utterance that replies to
    itself: the graph has a self-loop. *)
Lemma self_reply_makes_a_loop :
  ¬ always_acyclic plain_str canonical_order self_annotations self_corpus.
Proof.
  intros H.
  assert (build_conversation_graph plain_str canonical_order
            self_annotations self_corpus
          = Returned self_graph (mkCounters 0 1 1 0)) as Hrun
    by (vm_compute; reflexivity).
  apply (H _ _ Hrun "C"). apply tc_once. unfold edge_rel. by eexists.
Qed.

(** ** The theorems at the chain *)

Lemma nodes_are_annotated_or_parents_chain :
  build_conversation_graph plain_str canonical_order
    chain_annotations chain_corpus
  = Returned chain_graph (mkCounters 0 1 1 0)
  ∧ ∃ st all,
      load_annotations plain_str chain_annotations = Some st
      ∧ load_utterances plain_str chain_corpus = Some all
      ∧ dom (nodes chain_graph)
        = final_node_ids plain_str canonical_order (annotation_ids st) all
      ∧ dom (nodes chain_graph) ⊆ dom all
      ∧ ∀ n, n ∈ dom (nodes chain_graph)
             ↔ (annotated st n ∧ n ∈ dom all)
               ∨ ∃ child, (annotated st child ∧ child ∈ dom all)
                          ∧ corpus_parent plain_str all child n.
Proof.
  assert (build_conversation_graph plain_str canonical_order
            chain_annotations chain_corpus
          = Returned chain_graph (mkCounters 0 1 1 0)) as Hrun
    by (vm_compute; reflexivity).
  split; [exact Hrun|].
  exact (nodes_are_annotated_or_parents plain_str canonical_order
           _ _ _ _ Hrun).
Defined.

Lemma no_annotation_ids_no_graph_wrapped :
  (yields_no_ids plain_str wrapped_annotations
   ∨ ∃ v, wrapped_annotations = Decoded v ∧ is_list v = false)
  ∧ build_conversation_graph plain_str canonical_order
      wrapped_annotations chain_corpus = ReturnedNone
  ∧ yields_no_ids plain_str wrapped_annotations.
Proof.
  assert (yields_no_ids plain_str wrapped_annotations
          ∨ ∃ v, wrapped_annotations = Decoded v ∧ is_list v = false) as Hyp.
  { right. eexists. split; reflexivity. }
  split; [exact Hyp|].
  exact (no_annotation_ids_no_graph plain_str canonical_order
           wrapped_annotations chain_corpus Hyp).
Defined.

Lemma edges_follow_parent_references_chain :
  build_conversation_graph plain_str canonical_order
    chain_annotations chain_corpus
  = Returned chain_graph (mkCounters 0 1 1 0)
  ∧ ∃ st all,
      load_annotations plain_str chain_annotations = Some st
      ∧ load_utterances plain_str chain_corpus = Some all
      ∧ (∀ p ch, is_Some (edges chain_graph !! (p, ch))
                 ↔ ch ∈ dom (nodes chain_graph) ∧ p ∈ dom (nodes chain_graph)
                   ∧ replies_to plain_str all ch p)
      ∧ (∀ p ch,
           edges (reply_graph plain_str canonical_order
                    (dom (nodes chain_graph))
                    (utterances_for_graph canonical_order
                       (dom (nodes chain_graph)) all)).1 !! (p, ch)
           = if decide (is_Some (edges chain_graph !! (p, ch)))
             then Some reply_attr else None)
      ∧ (∀ p p' ch, is_Some (edges chain_graph !! (p, ch)) →
                    is_Some (edges chain_graph !! (p', ch)) → p = p')
      ∧ edges_added (mkCounters 0 1 1 0)
        = length (filter (λ ch, is_Some (edge_into plain_str
                                           (dom (nodes chain_graph)) all ch))
                         (elements (dom (nodes chain_graph)))).
Proof.
  assert (build_conversation_graph plain_str canonical_order
            chain_annotations chain_corpus
          = Returned chain_graph (mkCounters 0 1 1 0)) as Hrun
    by (vm_compute; reflexivity).
  split; [exact Hrun|].
  exact (edges_follow_parent_references plain_str canonical_order
           _ _ _ _ Hrun).
Defined.

Lemma unknown_codes_are_inert_chain :
  build_conversation_graph plain_str canonical_order
    unknown_annotations chain_corpus
  = Returned chain_reply_graph (mkCounters 1 1 0 0)
  ∧ ∃ st all annotations,
      load_annotations plain_str unknown_annotations = Some st
      ∧ load_utterances plain_str chain_corpus = Some all
      ∧ prepare_loop (dom (nodes chain_reply_graph)) ([], 0) (valid_annotations st)
        = inr (annotations, invalid_relations (mkCounters 1 1 0 0))
      ∧ invalid_relations (mkCounters 1 1 0 0)
        = length (filter (λ it, it.1 ∈ dom (nodes chain_reply_graph)
                                ∧ unmapped it.2)
                         (valid_annotations st))
      ∧ (∀ n d, n ∈ dom (nodes chain_reply_graph) →
                last_annotation (valid_annotations st) n = Some d →
                unmapped d → dict_get annotations n = Some d)
      ∧ (∀ p ch attrs, edges chain_reply_graph !! (p, ch) = Some attrs →
           ∃ r, attrs = relation_attr r ∧ r ∈ "reply" :: relation_words)
      ∧ (∀ p ch attrs d, edges chain_reply_graph !! (p, ch) = Some attrs →
           last_annotation (valid_annotations st) ch = Some d →
           unmapped d → asn_relation (code d) = None →
           attrs = relation_attr "reply")
      ∧ (∀ p ch r, edges chain_reply_graph !! (p, ch) = Some (relation_attr r) →
           r ≠ "reply" →
           ∃ d, last_annotation (valid_annotations st) ch = Some d
                ∧ (asn_relation (code d) = None →
                   relation_map_get (code d) = inr (Some r))).
Proof.
  assert (build_conversation_graph plain_str canonical_order
            unknown_annotations chain_corpus
          = Returned chain_reply_graph (mkCounters 1 1 0 0)) as Hrun
    by (vm_compute; reflexivity).
  split; [exact Hrun|].
  exact (unknown_codes_are_inert plain_str canonical_order _ _ _ _ Hrun).
Defined.

Lemma delta_flag_of_nodes_empty_meta :
  build_conversation_graph plain_str canonical_order
    delta_annotations delta_corpus
  = Returned delta_graph (mkCounters 0 0 0 1)
  ∧ ∃ all,
      load_utterances plain_str delta_corpus = Some all
      ∧ ∀ n attrs, nodes delta_graph !! n = Some attrs →
          ∃ d, all !! n = Some d
               ∧ attrs !! "delta"
                 = Some (JStr (py_str plain_str
                                 (JBool (has_meta_dict d
                                         && delta_marker
                                              (text_of plain_str d)))))
               ∧ (delta_marker (text_of plain_str d) = true
                  ↔ has_delta_marker (text_of plain_str d))
               ∧ (has_meta_dict d = true ↔ ∃ m, d !! "meta" = Some (JDict m)).
Proof.
  assert (build_conversation_graph plain_str canonical_order
            delta_annotations delta_corpus
          = Returned delta_graph (mkCounters 0 0 0 1)) as Hrun
    by (vm_compute; reflexivity).
  split; [exact Hrun|].
  exact (delta_flag_of_nodes plain_str canonical_order _ _ _ _ Hrun).
Defined.

Lemma forest_when_corpus_has_no_reply_cycle_chain :
  build_conversation_graph plain_str canonical_order
    chain_annotations chain_corpus
  = Returned chain_graph (mkCounters 0 1 1 0)
  ∧ load_utterances plain_str chain_corpus = Some chain_records
  ∧ no_reply_cycle plain_str chain_records
  ∧ acyclic chain_graph
  ∧ (∀ x, ¬ edge_rel chain_graph x x)
  ∧ (∀ p p' ch, edge_rel chain_graph p ch → edge_rel chain_graph p' ch →
                p = p').
Proof.
  assert (build_conversation_graph plain_str canonical_order
            chain_annotations chain_corpus
          = Returned chain_graph (mkCounters 0 1 1 0)) as Hrun
    by (vm_compute; reflexivity).
  assert (load_utterances plain_str chain_corpus = Some chain_records)
    as Hload by (vm_compute; reflexivity).
  assert (no_reply_cycle plain_str chain_records) as Hno
    by exact (chain_ends_no_cycle plain_str chain_records 4
                chain_ends_in_chain).
  split; [exact Hrun|]. split; [exact Hload|]. split; [exact Hno|].
  exact (forest_when_corpus_has_no_reply_cycle plain_str canonical_order
           _ _ _ _ _ Hrun Hload Hno).
Defined.

(** * Further properties of the code *)

Section Further.

Variable container_str : json → string.

Local Abbreviation str := (py_str container_str).
Local Abbreviation parent := (parent_id_of container_str).
Local Abbreviation kept := (kept container_str).
Local Abbreviation replies_to := (replies_to container_str).
Local Abbreviation edge_into := (edge_into container_str).

(** ** The loaders, item by item *)

Lemma annotation_step_kept st item st' :
  annotation_step container_str st item = Some st' →
  is_dict item = true
  ∧ valid_annotations st'
    = valid_annotations st ++ from_option (λ x, [x]) [] (kept item)
  ∧ skipped_items st'
    = skipped_items st ++ (if decide (is_Some (kept item)) then [] else [item]).
Proof.
  destruct item as [| | | | | |d]; simpl; try done.
  destruct (is_none (get d "id")); intros [= <-]; simpl;
    by rewrite app_nil_r.
Qed.

Lemma annotation_loop_kept items st st' :
  annotation_loop container_str st items = Some st' →
  Forall (λ item, is_dict item = true) items
  ∧ valid_annotations st' = valid_annotations st ++ omap kept items
  ∧ skipped_items st'
    = skipped_items st ++ filter (λ item, ¬ is_Some (kept item)) items.
Proof.
  revert st. induction items as [|item rest IH]; intros st; simpl.
  - intros [= <-]. by rewrite !app_nil_r.
  - destruct (annotation_step container_str st item) as [st1|] eqn:Hstep;
      [|done].
    intros (Hall & Hv & Hs)%IH.
    apply annotation_step_kept in Hstep as (Hd & Hv1 & Hs1).
    rewrite Hv, Hv1, Hs, Hs1, <- !app_assoc, filter_cons.
    split_and!; [by constructor| |].
    + f_equal. by destruct (kept item).
    + f_equal. destruct (decide (is_Some (kept item))) as [Hk|Hk].
      * by rewrite decide_False by (by intros ?).
      * by rewrite decide_True.
Qed.

Lemma kept_keyed item k d :
  kept item = Some (k, d) →
  d !! "id" = Some (JStr k)
  ∧ ∃ d0, item = JDict d0 ∧ get d0 "id" ≠ JNull ∧ k = str (get d0 "id")
          ∧ ∀ field, field ≠ "id" → d !! field = d0 !! field.
Proof.
  destruct item as [| | | | | |d0]; simpl; try done.
  destruct (is_none (get d0 "id")) eqn:Hnone; [done|]. intros [= <- <-].
  split; [by rewrite lookup_insert_eq|]. exists d0. split_and!; [done| |done|].
  - intros Heq. by rewrite Heq in Hnone.
  - intros field Hne. by rewrite lookup_insert_ne.
Qed.

Lemma omap_filter_length {A B} (f : A → option B) (l : list A) :
  length (omap f l) + length (filter (λ x, ¬ is_Some (f x)) l) = length l.
Proof.
  induction l as [|x l IH]; [done|]. rewrite filter_cons. simpl.
  change (list_omap A B f l) with (omap f l).
  destruct (f x) as [y|]; simpl; rewrite <- IH; lia.
Qed.

(** X1.  When the annotation loader succeeds on a list, every item is a
    mapping and is accounted for once: the kept annotations are, in file
    order, the items with an identifier, each stored with its identifier
    turned into a string and its other fields untouched; the items logged
    as skipped are the others; the identifier set is the set of the kept
    identifiers. *)
Theorem annotation_loader_accounts_for_every_item items st :
  load_annotations container_str (Decoded (JList items)) = Some st →
  Forall (λ item, is_dict item = true) items
  ∧ valid_annotations st = omap kept items
  ∧ skipped_items st = filter (λ item, ¬ is_Some (kept item)) items
  ∧ annotation_ids st = list_to_set (omap kept items).*1
  ∧ length (valid_annotations st) + length (skipped_items st) = length items
  ∧ ∀ k d, (k, d) ∈ valid_annotations st →
      d !! "id" = Some (JStr k)
      ∧ ∃ d0, JDict d0 ∈ items ∧ k = str (get d0 "id")
              ∧ ∀ field, field ≠ "id" → d !! field = d0 !! field.
Proof.
  intros Hload. pose proof (load_annotations_ids _ _ _ Hload) as Hids.
  simpl in Hload. apply annotation_loop_kept in Hload as (Hall & Hv & Hs).
  simpl in Hv, Hs. unfold ids_match in Hids. rewrite Hv in Hids.
  split_and!; [done..| |].
  - rewrite Hv, Hs. apply omap_filter_length.
  - intros k d. rewrite Hv, list_elem_of_omap.
    intros (item & Hin & Hk).
    apply kept_keyed in Hk as (Hid & d0 & -> & _ & Hk & Hfields).
    split; [done|]. by exists d0.
Qed.

Lemma utterance_step_kept all item all' :
  utterance_step container_str all item = Some all' →
  is_dict item = true
  ∧ all' = match kept item with
           | Some (k, d) => <[k := d]> all
           | None => all
           end.
Proof.
  destruct item as [| | | | | |d]; simpl; try done.
  by destruct (is_none (get d "id")); intros [= <-].
Qed.

Lemma utterance_loop_last items all all' :
  utterance_loop container_str all items = Some all' →
  Forall (λ item, is_dict item = true) items
  ∧ ∀ k, all' !! k = match last_kept container_str items k with
                     | Some d => Some d
                     | None => all !! k
                     end.
Proof.
  revert all. induction items as [|item rest IH]; intros all; simpl.
  - intros [= <-]. done.
  - destruct (utterance_step container_str all item) as [all1|] eqn:Hstep;
      [|done].
    intros (Hall & Hlast)%IH.
    apply utterance_step_kept in Hstep as (Hd & ->).
    split; [by constructor|]. intros k. rewrite Hlast.
    unfold last_kept. simpl.
    destruct (kept item) as [[k0 d0]|]; simpl; [|done].
    change (list_omap json loaded kept rest) with (omap kept rest).
    destruct (last_annotation (omap kept rest) k); [done|].
    rewrite lookup_insert. by case_decide.
Qed.

(** X2.  The utterance mapping holds, under every identifier, the last item
    of the file with that identifier (identifiers compared as strings, so
    the number 7 and the string "7" collide); earlier ones are
    overwritten. *)
Theorem utterance_loader_keeps_last items all k :
  load_utterances container_str (Decoded (JList items)) = Some all →
  all !! k = last_kept container_str items k.
Proof.
  simpl. intros (_ & Hlast)%utterance_loop_last.
  rewrite Hlast, lookup_empty. by destruct (last_kept container_str items k).
Qed.

(** ** How a call ends *)

Lemma utterance_loop_non_mapping all items :
  (∃ item, item ∈ items ∧ is_dict item = false) →
  utterance_loop container_str all items = None.
Proof.
  revert all. induction items as [|x items IH]; intros all (item & Hin & Hnd).
  - by inversion Hin.
  - simpl. apply elem_of_cons in Hin as [<-|Hin].
    + by destruct item.
    + destruct (utterance_step container_str all x) as [all'|]; [|done].
      apply IH. eauto.
Qed.

Lemma assemble_not_none O raw ids all :
  assemble container_str O raw ids all ≠ ReturnedNone.
Proof.
  unfold assemble. destruct (prepare_loop _ _ _) as [e|[annotations inv]];
    [done|]. by destruct (reply_graph _ _ _ _).
Qed.

Lemma build_cases O a c :
  (build_conversation_graph container_str O a c = ReturnedNone
   ∧ (load_annotations container_str a = None
      ∨ (∃ st, load_annotations container_str a = Some st
               ∧ annotation_ids st = ∅)
      ∨ load_utterances container_str c = None
      ∨ load_utterances container_str c = Some ∅))
  ∨ ∃ st all,
      load_annotations container_str a = Some st
      ∧ annotation_ids st ≠ ∅
      ∧ load_utterances container_str c = Some all
      ∧ all ≠ ∅
      ∧ build_conversation_graph container_str O a c
        = assemble container_str O (valid_annotations st)
            (annotation_ids st) all.
Proof.
  unfold build_conversation_graph.
  destruct (load_annotations container_str a) as [st|]; [|left; eauto].
  case_bool_decide as Hids; [left; split; [done|]; eauto|].
  destruct (load_utterances container_str c) as [all|];
    [|left; split; [done|]; eauto].
  case_bool_decide as Hdom.
  - left. split; [done|]. do 3 right. f_equal. by apply dom_empty_inv_L.
  - right. exists st, all. split_and!; try done. intros ->. apply Hdom.
    apply dom_empty_L.
Qed.

(** X3.  The function returns [None] in four cases only, all of them at the
    loaders: the annotation file does not load, it loads without a single
    identifier, the utterance file does not load, or it loads without a
    single record. *)
Theorem returns_none_iff_a_loader_gives_up O a c :
  build_conversation_graph container_str O a c = ReturnedNone
  ↔ load_annotations container_str a = None
    ∨ (∃ st, load_annotations container_str a = Some st
             ∧ annotation_ids st = ∅)
    ∨ load_utterances container_str c = None
    ∨ load_utterances container_str c = Some ∅.
Proof.
  destruct (build_cases O a c)
    as [[Hnone Hwhy]|(st & all & Hst & Hids & Hall & Hne & Hrun)].
  - by split.
  - split.
    + rewrite Hrun. intros H. by apply assemble_not_none in H.
    + intros [?|[(st' & ? & ?)|[?|?]]]; congruence.
Qed.

(** X4.  An item of the utterance list that is not a mapping, wherever it
    stands, makes the function return [None], whatever the annotations. *)
Theorem non_mapping_utterance_aborts O a items :
  (∃ item, item ∈ items ∧ is_dict item = false) →
  build_conversation_graph container_str O a (Decoded (JList items))
  = ReturnedNone.
Proof.
  intros Hbad.
  destruct (build_cases O a (Decoded (JList items)))
    as [[Hnone _]|(st & all & _ & _ & Hall & _)]; [done|].
  simpl in Hall. by rewrite utterance_loop_non_mapping in Hall.
Qed.

Lemma relation_map_get_raises v e :
  relation_map_get v = inl e ↔ unhashable v = true.
Proof.
  destruct e. by destruct v.
Qed.

Lemma prepare_loop_must_raise final st raw :
  (∃ it, it ∈ raw ∧ it.1 ∈ final ∧ unhashable (code it.2) = true) →
  prepare_loop final st raw = inl TypeError.
Proof.
  revert st. induction raw as [|[k d] rest IH]; intros st (it & Hin & Hfin & Hun).
  - by inversion Hin.
  - simpl. destruct (prepare_step final st (k, d)) as [[]|st'] eqn:Hstep;
      [done|].
    apply IH. apply elem_of_cons in Hin as [->|Hin]; [|eauto].
    exfalso. destruct st as [annotations inv]. unfold prepare_step in Hstep.
    simpl in Hfin, Hun. rewrite bool_decide_eq_true_2 in Hstep by done.
    change (get d "reply_relation") with (code d) in Hstep.
    apply (relation_map_get_raises _ TypeError) in Hun.
    by rewrite Hun in Hstep.
Qed.

Lemma annotation_in_graph O ids all k :
  keyed all → k ∈ ids →
  k ∈ final_node_ids container_str O ids all ↔ k ∈ dom all.
Proof.
  intros Hk Hids. split.
  - by apply final_node_ids_in_corpus.
  - intros Hdom. apply elem_of_final_node_ids; [done|]. by left.
Qed.

(** X5.  The [TypeError] of the lookup at line 134 leaves the function
    exactly when both files load and a kept annotation of an utterance of
    the corpus has a list or a mapping for relation code. *)
Theorem raises_iff_unhashable_relation_code O a c :
  build_conversation_graph container_str O a c = Raised TypeError
  ↔ ∃ st all it,
      load_annotations container_str a = Some st
      ∧ load_utterances container_str c = Some all
      ∧ it ∈ valid_annotations st
      ∧ it.1 ∈ dom all
      ∧ unhashable (code it.2) = true.
Proof.
  split.
  - destruct (build_cases O a c)
      as [[Hnone _]|(st & all & Hst & Hids & Hall & Hne & Hrun)];
      [congruence|].
    rewrite Hrun. unfold assemble.
    destruct (prepare_loop _ _ _) as [e|[annotations inv]] eqn:Hloop;
      [|by destruct (reply_graph _ _ _ _)].
    intros _. apply prepare_loop_raises in Hloop as (it & Hin & Hfin & Hit).
    exists st, all, it. split_and!; [done..| |].
    + eapply final_node_ids_in_corpus; [|done].
      by eapply load_utterances_keyed.
    + by eapply relation_map_get_raises.
  - intros (st & all & it & Hst & Hall & Hin & Hdom & Hun).
    pose proof (load_utterances_keyed _ _ _ Hall) as Hk.
    assert (it.1 ∈ annotation_ids st) as Hid.
    { rewrite (load_annotations_ids _ _ _ Hst).
      apply elem_of_list_to_set, list_elem_of_fmap. eauto. }
    unfold build_conversation_graph. rewrite Hst, Hall.
    rewrite bool_decide_eq_false_2 by set_solver.
    rewrite bool_decide_eq_false_2 by set_solver.
    unfold assemble. rewrite prepare_loop_must_raise; [done|].
    exists it. split_and!; [done| |done]. by apply annotation_in_graph.
Qed.

Lemma set_iter_empty O : set_iter O ∅ = [].
Proof.
  apply Permutation_nil_r. by rewrite (set_iter_perm O ∅), elements_empty.
Qed.

Lemma prepare_loop_empty st raw : prepare_loop ∅ st raw = inr st.
Proof.
  induction raw as [|[k d] rest IH]; [done|]. simpl.
  destruct st as [annotations inv]. unfold prepare_step.
  by rewrite bool_decide_eq_false_2 by set_solver.
Qed.

Lemma final_empty O ids all :
  ids ∩ dom all = ∅ → final_node_ids container_str O ids all = ∅.
Proof.
  intros Hdisj. unfold final_node_ids, required_node_ids.
  rewrite Hdisj, set_iter_empty. simpl. set_solver.
Qed.

Lemma assemble_disjoint O raw ids all :
  ids ∩ dom all = ∅ →
  assemble container_str O raw ids all
  = Returned empty_graph (mkCounters 0 0 0 0).
Proof.
  intros Hdisj. unfold assemble, reply_graph, utterances_for_graph.
  rewrite (final_empty O ids all Hdisj), prepare_loop_empty, set_iter_empty.
  done.
Qed.

(** X6.  When both files load but no annotated identifier names an
    utterance of the corpus, the function still returns a graph: the empty
    one, with every counter at zero. *)
Theorem disjoint_annotations_give_the_empty_graph O a c st all :
  load_annotations container_str a = Some st →
  annotation_ids st ≠ ∅ →
  load_utterances container_str c = Some all →
  all ≠ ∅ →
  annotation_ids st ∩ dom all = ∅ →
  build_conversation_graph container_str O a c
  = Returned empty_graph (mkCounters 0 0 0 0).
Proof.
  intros Hst Hids Hall Hne Hdisj.
  unfold build_conversation_graph. rewrite Hst, Hall.
  rewrite bool_decide_eq_false_2 by done.
  rewrite bool_decide_eq_false_2 by (by intros ?%dom_empty_inv_L).
  by apply assemble_disjoint.
Qed.

(** X7.  The script reports that the construction failed exactly when no
    annotated identifier names an utterance of the loaded corpus, which
    covers a file that does not load, a file without identifiers, and
    annotations that all miss the corpus: in the last case the function
    did return a graph, but one without nodes, which line 251 takes for a
    failure. *)
Theorem main_reports_failure_iff_nothing_annotated O write_graphml a c :
  main container_str O write_graphml a c = inr ConstructionFailed
  ↔ ∀ st all,
      load_annotations container_str a = Some st →
      load_utterances container_str c = Some all →
      annotation_ids st ∩ dom all = ∅.
Proof.
  unfold main.
  destruct (build_cases O a c)
    as [[Hnone Hwhy]|(st & all & Hst & Hids & Hall & Hne & Hrun)].
  - rewrite Hnone. split; [|done]. intros _ st all Hst Hall.
    destruct Hwhy as [?|[(st' & ? & ?)|[?|?]]]; simplify_eq; set_solver.
  - pose proof (load_utterances_keyed _ _ _ Hall) as Hk.
    destruct (decide (annotation_ids st ∩ dom all = ∅)) as [Hdisj|Hmeet].
    + rewrite Hrun, assemble_disjoint by done. simpl. split; [|done].
      intros _ st' all' ? ?. by simplify_eq.
    + split; [|intros H; by specialize (H st all Hst Hall)].
      rewrite Hrun.
      destruct (assemble container_str O (valid_annotations st)
                  (annotation_ids st) all) as [G k| |e] eqn:Hasm;
        [|by apply assemble_not_none in Hasm|done].
      assert (truthy_graph G = true) as ->.
      { unfold truthy_graph. apply negb_true_iff, bool_decide_eq_false.
        rewrite (dom_nodes_final _ _ _ _ _ _ _ Hasm). intros Hfin.
        apply Hmeet. apply set_eq. intros n. split; [|set_solver].
        intros Hn. rewrite <- Hfin.
        apply elem_of_final_node_ids; [done|]. left. set_solver. }
      by destruct (write_graphml G).
Qed.

(** ** What a mapped annotation does *)

Lemma last_annotation_elem raw c d :
  last_annotation raw c = Some d → (c, d) ∈ raw.
Proof.
  induction raw as [|[c' d'] rest IH]; simpl; [done|].
  destruct (last_annotation rest c) as [d0|].
  - intros [= ->]. right. by apply IH.
  - case_decide; [|done]. intros [= ->]. subst. by left.
Qed.

Lemma last_annotation_is_Some raw c :
  is_Some (last_annotation raw c) ↔ c ∈ raw.*1.
Proof.
  induction raw as [|[c' d'] rest IH]; simpl.
  - split; [by intros [? ?]|by inversion 1].
  - rewrite elem_of_cons, <- IH.
    destruct (last_annotation rest c) as [d0|]; [naive_solver|].
    case_decide; split; naive_solver.
Qed.

Lemma bind_target_parent all c d p :
  all !! c = Some d → parent d = Some p →
  bind_target container_str all c = if decide (p = "") then None else Some p.
Proof.
  intros Hd Hp. unfold bind_target, index. rewrite Hd. simpl. rewrite Hp.
  by destruct p.
Qed.

(** X8.  An annotation with a code of the vocabulary labels the reply edge
    of its utterance: when the last annotation written for [ch] has a code
    that the relation map sends to [m], and the record of [ch] names a
    parent [p] that is in the corpus, the returned graph has the edge from
    [p] to [ch] and its relation is [m].  One case apart: a parent whose
    identifier is the empty string counts as no parent at line 203, and
    the edge keeps the relation reply. *)
Theorem mapped_annotation_labels_its_edge O a c G k st all ch d m p :
  build_conversation_graph container_str O a c = Returned G k →
  load_annotations container_str a = Some st →
  load_utterances container_str c = Some all →
  last_annotation (valid_annotations st) ch = Some d →
  relation_map_get (code d) = inr (Some m) →
  replies_to all ch p →
  p ∈ dom all →
  edges G !! (p, ch)
  = Some (relation_attr (if decide (p = "") then "reply" else m)).
Proof.
  intros (st' & all' & Hst' & _ & Hall' & _ & Hasm)%build_returned Hst Hall.
  assert (st' = st) as -> by congruence.
  assert (all' = all) as -> by congruence. clear Hst' Hall'.
  intros Hlast Hm (rec & Hrec & Hp) Hpdom.
  pose proof (load_utterances_keyed _ _ _ Hall) as Hk.
  assert (ch ∈ annotation_ids st) as Hid.
  { rewrite (load_annotations_ids _ _ _ Hst).
    apply elem_of_list_to_set, list_elem_of_fmap.
    exists (ch, d). split; [done|]. by apply last_annotation_elem. }
  assert (ch ∈ dom all) as Hchdom by (apply elem_of_dom; eauto).
  assert (is_Some (edges G !! (p, ch))) as [attrs Hattrs].
  { apply (edges_of_assembled _ _ _ _ _ _ _ _ _ Hk Hasm).
    rewrite (dom_nodes_final _ _ _ _ _ _ _ Hasm).
    rewrite !elem_of_final_node_ids by done. split_and!.
    - by left.
    - right. exists ch. split; [done|]. by exists rec.
    - by exists rec. }
  rewrite Hattrs. f_equal.
  rewrite (edges_labelled _ _ _ _ _ _ _ _ _ _ Hasm Hattrs). f_equal.
  unfold edge_label. rewrite Hlast, (code_prepared _ _ Hm).
  rewrite (relation_map_get_Some _ _ Hm).
  rewrite (bind_target_parent _ _ _ _ Hrec Hp).
  destruct (decide (p = "")) as [->|Hne].
  - by rewrite decide_False.
  - by rewrite decide_True.
Qed.

(** ** The attributes of a node *)

Lemma node_attributes_keys d :
  dom (node_attributes container_str d) = node_keys.
Proof.
  unfold node_attributes, node_keys. rewrite !dom_insert_L, dom_empty_L.
  set_solver.
Qed.

Lemma node_attributes_lookup d key v :
  node_attributes container_str d !! key = Some v →
  v ≠ JNull
  ∧ (key ∈ ["text"; "user"; "root"; "delta"] → is_str v = true)
  ∧ (key = "timestamp" →
     v = if is_none (get d "timestamp") then JStr "" else get d "timestamp")
  ∧ (key = "score" →
     v = if is_none (get d "score") then JInt 0 else get d "score").
Proof.
  intros Hv. unfold node_attributes in Hv. rewrite !lookup_insert in Hv.
  assert (∀ k : string, k ∈ ["text"; "user"; "root"; "delta"] →
            k ≠ "timestamp" ∧ k ≠ "score") as Hlisted.
  { intros k Hin.
    repeat (apply elem_of_cons in Hin as [->|Hin]; [by split|]).
    by apply elem_of_nil in Hin. }
  repeat case_decide; simplify_eq; split_and!; try done;
    try (intros Hin; by apply Hlisted in Hin as [? ?]);
    try by destruct (get d _).
Qed.

(** X9.  Every node of the returned graph carries exactly the six
    attributes text, user, root, timestamp, score and delta; none of them
    is [None]; text, user, root and delta are strings; timestamp and score
    are the record's own values, replaced by the empty string and by 0
    when the record has none or has [null]. *)
Theorem nodes_carry_six_attributes O a c G k n attrs :
  build_conversation_graph container_str O a c = Returned G k →
  nodes G !! n = Some attrs →
  dom attrs = node_keys
  ∧ (∀ key v, attrs !! key = Some v → v ≠ JNull)
  ∧ (∀ key v, key ∈ ["text"; "user"; "root"; "delta"] →
              attrs !! key = Some v → is_str v = true)
  ∧ ∃ all d,
      load_utterances container_str c = Some all
      ∧ all !! n = Some d
      ∧ attrs !! "timestamp"
        = Some (if is_none (get d "timestamp") then JStr ""
                else get d "timestamp")
      ∧ attrs !! "score"
        = Some (if is_none (get d "score") then JInt 0 else get d "score").
Proof.
  intros (st & all & Hst & _ & Hall & _ & Hasm)%build_returned Hn.
  pose proof (load_utterances_keyed _ _ _ Hall) as Hk.
  destruct (assemble_spec _ _ _ _ _ _ _ Hasm) as (_ & _ & Hnodes & _).
  rewrite Hnodes in Hn. case_decide as Hfin; [|done].
  apply final_node_ids_in_corpus, elem_of_dom in Hfin as [d Hd]; [|done].
  unfold index in Hn. rewrite Hd in Hn. simpl in Hn. injection Hn as <-.
  split_and!.
  - apply node_attributes_keys.
  - intros key v Hv. by apply node_attributes_lookup in Hv as (? & _).
  - intros key v Hkey Hv.
    apply node_attributes_lookup in Hv as (_ & Hstr & _). by apply Hstr.
  - exists all, d. split_and!; [done..| |].
    + destruct (node_attributes container_str d !! "timestamp") as [v|] eqn:Hv.
      * apply node_attributes_lookup in Hv as (_ & _ & -> & _); done.
      * apply not_elem_of_dom in Hv. rewrite node_attributes_keys in Hv.
        exfalso. apply Hv. unfold node_keys. set_solver.
    + destruct (node_attributes container_str d !! "score") as [v|] eqn:Hv.
      * apply node_attributes_lookup in Hv as (_ & _ & _ & ->); done.
      * apply not_elem_of_dom in Hv. rewrite node_attributes_keys in Hv.
        exfalso. apply Hv. unfold node_keys. set_solver.
Qed.

(** ** Counters against the graph *)

Lemma edges_as_list O raw ids all G k :
  assemble container_str O raw ids all = Returned G k →
  dom (edges G)
  = list_to_set
      ((λ c, (default "" (edge_into (final_node_ids container_str O ids all)
                                    all c), c))
       <$> filter (λ c, is_Some (edge_into
                                   (final_node_ids container_str O ids all)
                                   all c))
                  (elements (final_node_ids container_str O ids all))).
Proof.
  intros Hasm.
  destruct (assemble_spec _ _ _ _ _ _ _ Hasm) as (ann & _ & _ & He & _).
  set (final := final_node_ids container_str O ids all) in *.
  apply set_eq. intros [p c].
  rewrite elem_of_dom, He, relabel_is_Some, elem_of_list_to_set.
  rewrite list_elem_of_fmap. unfold reply_edge. split.
  - case_decide as H; [|by intros [? ?]]. intros _. destruct H as [Hc Hp].
    exists c. rewrite Hp. split; [done|].
    apply list_elem_of_filter. split; [by rewrite Hp|].
    by apply elem_of_elements.
  - intros (c' & [= -> <-] & [[q Hq] Hc]%list_elem_of_filter).
    apply elem_of_elements in Hc. rewrite Hq. simpl.
    rewrite decide_True; [eauto|done].
Qed.

(** X10.  The edge counter the function logs is the number of edges of the
    returned graph. *)
Theorem edge_counter_is_number_of_edges O a c G k :
  build_conversation_graph container_str O a c = Returned G k →
  edges_added k = size (edges G).
Proof.
  intros (st & all & Hst & _ & Hall & _ & Hasm)%build_returned.
  destruct (assemble_spec _ _ _ _ _ _ _ Hasm) as (_ & _ & _ & _ & ->).
  rewrite <- size_dom, (edges_as_list _ _ _ _ _ _ Hasm).
  rewrite size_list_to_set, length_fmap; [done|].
  apply NoDup_fmap_2_strong.
  - intros x y _ _ [= _ ->]. done.
  - apply NoDup_filter, NoDup_elements.
Qed.

(** ** Annotations that miss the corpus *)

Lemma prepare_loop_filter final (P : loaded → Prop) `{∀ x, Decision (P x)}
    st raw :
  (∀ it, it ∈ raw → it.1 ∈ final → P it) →
  prepare_loop final st (filter P raw) = prepare_loop final st raw.
Proof.
  revert st. induction raw as [|[k d] rest IH]; intros st Hkeep; [done|].
  rewrite filter_cons. destruct (decide (P (k, d))) as [HP|HP]; simpl.
  - destruct (prepare_step final st (k, d)); [done|].
    apply IH. intros it Hin. apply Hkeep. by right.
  - destruct st as [annotations inv]. unfold prepare_step.
    rewrite bool_decide_eq_false_2.
    + apply IH. intros it Hin. apply Hkeep. by right.
    + intros Hfin. apply HP. apply Hkeep; [by left|done].
Qed.

(** X11.  Annotations written for identifiers the corpus does not have
    change nothing: taking them out of the loaded annotation list, and
    their identifiers out of the identifier set, leaves the graph, the
    counters and a raised exception as they are. *)
Theorem annotations_outside_corpus_change_nothing O raw ids all :
  keyed all →
  assemble container_str O raw ids all
  = assemble container_str O (filter (λ it, it.1 ∈ dom all) raw)
      (ids ∩ dom all) all.
Proof.
  intros Hk.
  assert (final_node_ids container_str O (ids ∩ dom all) all
          = final_node_ids container_str O ids all) as Hfinal.
  { unfold final_node_ids, required_node_ids.
    by assert (ids ∩ dom all ∩ dom all = ids ∩ dom all) as -> by set_solver. }
  unfold assemble. rewrite Hfinal.
  rewrite (prepare_loop_filter _ (λ it, it.1 ∈ dom all)); [done|].
  intros it _ Hfin. by eapply final_node_ids_in_corpus.
Qed.

(** ** Counters against the annotations *)

Lemma dict_get_keys {V} (l : list (string * V)) c :
  is_Some (dict_get l c) ↔ c ∈ l.*1.
Proof.
  induction l as [|[k v] l IH]; simpl.
  - split; [by intros [? ?]|by inversion 1].
  - rewrite elem_of_cons, <- IH.
    destruct (String.eqb_spec k c) as [->|Hne]; [naive_solver|].
    naive_solver.
Qed.

Lemma dict_get_NoDup {V} (l : list (string * V)) c v :
  NoDup l.*1 → (c, v) ∈ l → dict_get l c = Some v.
Proof.
  induction l as [|[k v'] l IH]; simpl; [by inversion 2|].
  intros [Hk Hnd]%NoDup_cons [[= -> ->]|Hin]%elem_of_cons.
  - by rewrite String.eqb_refl.
  - destruct (String.eqb_spec k c) as [->|Hne]; [|by apply IH].
    exfalso. apply Hk. apply list_elem_of_fmap. by exists (c, v).
Qed.

Lemma filter_length_fmap {A B} (f : A → B) (P : A → Prop) (Q : B → Prop)
    `{∀ x, Decision (P x)} `{∀ y, Decision (Q y)} (l : list A) :
  (∀ x, x ∈ l → P x ↔ Q (f x)) →
  length (filter P l) = length (filter Q (f <$> l)).
Proof.
  induction l as [|x l IH]; intros Hext; [done|].
  rewrite fmap_cons, !filter_cons.
  assert (P x ↔ Q (f x)) as Hx by (apply Hext; by left).
  specialize (IH (λ y Hy, Hext y (list_elem_of_further _ _ _ Hy))).
  destruct (decide (P x)) as [HP|HP].
  - rewrite decide_True by (by apply Hx). simpl. by rewrite IH.
  - by rewrite decide_False by (by rewrite <- Hx).
Qed.

Lemma annotation_dictionary O a st all annotations inv :
  load_annotations container_str a = Some st →
  keyed all →
  prepare_loop (final_node_ids container_str O (annotation_ids st) all)
    ([], 0) (valid_annotations st) = inr (annotations, inv) →
  annotations.*1 ≡ₚ elements (annotation_ids st ∩ dom all)
  ∧ ∀ ch d, (ch, d) ∈ annotations →
      ∃ d0, last_annotation (valid_annotations st) ch = Some d0
            ∧ d = prepared d0.
Proof.
  intros Hst Hk Hloop.
  destruct (prepare_loop_spec _ _ _ _ Hloop) as (Hnd & Hget & _);
    [apply NoDup_nil_2|]. simpl in Hnd, Hget.
  assert (∀ ch, ch ∈ annotation_ids st
                ↔ is_Some (last_annotation (valid_annotations st) ch)) as Hids.
  { intros ch. rewrite (load_annotations_ids _ _ _ Hst), elem_of_list_to_set.
    by rewrite last_annotation_is_Some. }
  split.
  - apply NoDup_Permutation; [done|apply NoDup_elements|].
    intros ch. rewrite <- dict_get_keys, Hget, elem_of_elements.
    rewrite elem_of_intersection, Hids.
    case_decide as Hfin.
    + destruct (last_annotation (valid_annotations st) ch) as [d0|] eqn:Hlast.
      * split; [|eauto]. intros _. split; [eauto|].
        by eapply final_node_ids_in_corpus.
      * split; [by intros [? ?]|]. by intros [[? ?] _].
    + split; [by intros [? ?]|]. intros [Hann Hdom]. destruct Hfin.
      apply annotation_in_graph; [done| |done]. by apply Hids.
  - intros ch d Hin. pose proof (dict_get_NoDup _ _ _ Hnd Hin) as Hd.
    rewrite Hget in Hd. case_decide; [|done].
    destruct (last_annotation (valid_annotations st) ch) as [d0|]; [|done].
    exists d0. split; [done|congruence].
Qed.

Lemma truthy_id_Some o p : truthy_id o = Some p → o = Some p.
Proof. destruct o as [[|x q]|]; simpl; congruence. Qed.

Lemma edge_found_finds_parent O ids all ch :
  keyed all →
  ch ∈ ids ∩ dom all →
  edge_found container_str
    (reply_graph container_str O (final_node_ids container_str O ids all)
       (utterances_for_graph O (final_node_ids container_str O ids all)
          all)).1
    (utterances_for_graph O (final_node_ids container_str O ids all) all) ch
  = finds_parent container_str all ch.
Proof.
  intros Hk Hch.
  set (final := final_node_ids container_str O ids all).
  assert (ch ∈ final) as Hfin.
  { apply elem_of_final_node_ids; [done|]. left. set_solver. }
  unfold edge_found, finds_parent, bind_target.
  rewrite index_for_graph by done.
  destruct (truthy_id (parent (index all ch))) as [p|] eqn:Hp; [|done].
  apply truthy_id_Some in Hp. unfold has_edge.
  destruct (reply_graph_spec container_str O final all) as (_ & -> & _).
  assert (ch ∈ final ∧ edge_into final all ch = Some p ↔ p ∈ dom all)
    as Hiff.
  { rewrite edge_into_parent. split.
    - intros (_ & _ & Hpf). by eapply final_node_ids_in_corpus.
    - intros Hdom. split_and!; [done..|].
      apply elem_of_final_node_ids; [done|]. right. exists ch.
      split; [set_solver|].
      assert (ch ∈ dom all) as [d Hd]%elem_of_dom by set_solver.
      exists d. unfold index in Hp. rewrite Hd in Hp. done. }
  apply bool_decide_ext. rewrite <- Hiff.
  case_decide; split; eauto; [by intros [? ?]|done].
Qed.

Lemma bind_counters_split O raw ids all G k :
  assemble container_str O raw ids all = Returned G k →
  ∃ annotations,
    prepare_loop (final_node_ids container_str O ids all) ([], 0) raw
      = inr (annotations, invalid_relations k)
    ∧ asn_added k
      = length (filter
          (λ ann, applies container_str
             (reply_graph container_str O
                (final_node_ids container_str O ids all)
                (utterances_for_graph O
                   (final_node_ids container_str O ids all) all)).1
             (utterances_for_graph O
                (final_node_ids container_str O ids all) all) ann = true)
          annotations)
    ∧ asn_missing_edge k
      = length (filter
          (λ ann, misses container_str
             (reply_graph container_str O
                (final_node_ids container_str O ids all)
                (utterances_for_graph O
                   (final_node_ids container_str O ids all) all)).1
             (utterances_for_graph O
                (final_node_ids container_str O ids all) all) ann = true)
          annotations).
Proof.
  unfold assemble.
  set (final := final_node_ids container_str O ids all).
  destruct (prepare_loop final ([], 0) raw) as [e|[annotations inv]] eqn:Hloop;
    [done|].
  destruct (reply_graph container_str O final
              (utterances_for_graph O final all)) as [G1 ec].
  intros [= <- <-]. simpl.
  destruct (prepare_loop_spec _ _ _ _ Hloop) as (Hnd & _ & _);
    [apply NoDup_nil_2|]. simpl in Hnd.
  destruct (bind_fold_spec container_str (utterances_for_graph O final all) G1
              annotations Hnd) as (_ & _ & -> & ->).
  by exists annotations.
Qed.

(** X12.  The two counters of the binding loop sort the annotated
    utterances of the corpus whose last annotation stores a relation word:
    the applied counter counts those whose record names a parent that is
    in the corpus under a non-empty identifier, the missing-edge counter
    counts the others; every such utterance is counted once, whatever the
    number of annotations written for it, and no other utterance is
    counted. *)
Theorem binding_counters_sort_the_labelled_annotations O a c G k st all :
  build_conversation_graph container_str O a c = Returned G k →
  load_annotations container_str a = Some st →
  load_utterances container_str c = Some all →
  asn_added k
  = length (filter (λ ch, stores_relation_word (valid_annotations st) ch
                          && finds_parent container_str all ch = true)
                   (elements (annotation_ids st ∩ dom all)))
  ∧ asn_missing_edge k
    = length (filter (λ ch, stores_relation_word (valid_annotations st) ch
                            && negb (finds_parent container_str all ch)
                            = true)
                     (elements (annotation_ids st ∩ dom all))).
Proof.
  intros (st' & all' & Hst' & _ & Hall' & _ & Hasm)%build_returned Hst Hall.
  assert (st' = st) as -> by congruence.
  assert (all' = all) as -> by congruence. clear Hst' Hall'.
  pose proof (load_utterances_keyed _ _ _ Hall) as Hk.
  destruct (bind_counters_split _ _ _ _ _ _ Hasm)
    as (annotations & Hloop & -> & ->).
  destruct (annotation_dictionary _ _ _ _ _ _ Hst Hk Hloop) as (Hperm & Hrec).
  rewrite <- Hperm.
  split; apply (filter_length_fmap fst); intros [ch d] Hin; simpl;
    destruct (Hrec _ _ Hin) as (d0 & Hlast & ->);
    (assert (ch ∈ annotation_ids st ∩ dom all) as Hch
       by (apply elem_of_elements; rewrite <- Hperm;
           apply list_elem_of_fmap; by exists (ch, prepared d0)));
    unfold applies, misses, stores_relation_word; simpl; rewrite Hlast;
    rewrite (edge_found_finds_parent _ _ _ _ Hk Hch);
    by destruct (asn_relation (code (prepared d0))).
Qed.

(** ** One corpus, two annotation files *)

Lemma final_node_ids_mono O1 O2 ids1 ids2 all :
  keyed all → ids1 ⊆ ids2 →
  final_node_ids container_str O1 ids1 all
  ⊆ final_node_ids container_str O2 ids2 all.
Proof.
  intros Hk Hsub n. rewrite !elem_of_final_node_ids by done.
  intros [[? ?]|(ch & [? ?] & ?)]; [left; split; auto|].
  right. exists ch. split; [split; auto|done].
Qed.

(** X13.  Annotating more never takes anything away: when the annotated
    identifiers of one annotation file are among those of another, then on
    the same corpus every node and every edge of the first graph is a node
    or an edge of the second. *)
Theorem more_annotations_more_graph O1 O2 a1 a2 c G1 k1 G2 k2 st1 st2 :
  build_conversation_graph container_str O1 a1 c = Returned G1 k1 →
  build_conversation_graph container_str O2 a2 c = Returned G2 k2 →
  load_annotations container_str a1 = Some st1 →
  load_annotations container_str a2 = Some st2 →
  annotation_ids st1 ⊆ annotation_ids st2 →
  dom (nodes G1) ⊆ dom (nodes G2) ∧ dom (edges G1) ⊆ dom (edges G2).
Proof.
  intros (st1' & all & Hst1' & _ & Hall & _ & Hasm1)%build_returned.
  intros (st2' & all' & Hst2' & _ & Hall' & _ & Hasm2)%build_returned.
  intros Hst1 Hst2 Hsub. simplify_eq.
  pose proof (load_utterances_keyed _ _ _ Hall) as Hk.
  assert (dom (nodes G1) ⊆ dom (nodes G2)) as Hnodes.
  { rewrite (dom_nodes_final _ _ _ _ _ _ _ Hasm1).
    rewrite (dom_nodes_final _ _ _ _ _ _ _ Hasm2).
    by apply final_node_ids_mono. }
  split; [done|]. intros [p ch]. rewrite !elem_of_dom.
  rewrite (edges_of_assembled _ _ _ _ _ _ _ _ _ Hk Hasm1).
  rewrite (edges_of_assembled _ _ _ _ _ _ _ _ _ Hk Hasm2).
  intros (? & ? & ?). split_and!; auto.
Qed.

(** X14.  Between the nodes two graphs over the same corpus share, the
    corpus alone decides: a shared node has the same attributes in both,
    and two shared nodes are joined by an edge in one exactly when they are
    in the other.  Annotations choose the nodes and the relation of an
    edge, nothing else. *)
Theorem corpus_alone_decides_attributes_and_edges
    O1 O2 a1 a2 c G1 k1 G2 k2 :
  build_conversation_graph container_str O1 a1 c = Returned G1 k1 →
  build_conversation_graph container_str O2 a2 c = Returned G2 k2 →
  (∀ n, n ∈ dom (nodes G1) → n ∈ dom (nodes G2) →
        nodes G1 !! n = nodes G2 !! n)
  ∧ (∀ p ch, p ∈ dom (nodes G1) → p ∈ dom (nodes G2) →
             ch ∈ dom (nodes G1) → ch ∈ dom (nodes G2) →
             is_Some (edges G1 !! (p, ch)) ↔ is_Some (edges G2 !! (p, ch))).
Proof.
  intros (st1 & all & Hst1 & _ & Hall & _ & Hasm1)%build_returned.
  intros (st2 & all' & Hst2 & _ & Hall' & _ & Hasm2)%build_returned.
  simplify_eq.
  pose proof (load_utterances_keyed _ _ _ Hall) as Hk.
  split.
  - intros n.
    rewrite (dom_nodes_final _ _ _ _ _ _ _ Hasm1).
    rewrite (dom_nodes_final _ _ _ _ _ _ _ Hasm2). intros Hn1 Hn2.
    destruct (assemble_spec _ _ _ _ _ _ _ Hasm1) as (_ & _ & -> & _).
    destruct (assemble_spec _ _ _ _ _ _ _ Hasm2) as (_ & _ & -> & _).
    by rewrite !decide_True.
  - intros p ch Hp1 Hp2 Hch1 Hch2.
    rewrite (edges_of_assembled _ _ _ _ _ _ _ _ _ Hk Hasm1).
    rewrite (edges_of_assembled _ _ _ _ _ _ _ _ _ Hk Hasm2).
    naive_solver.
Qed.

End Further.

(** * The further properties on the examples *)

Lemma chain_records_keyed : keyed chain_records.
Proof.
  apply (load_utterances_keyed plain_str chain_corpus). vm_compute; reflexivity.
Qed.

(** A list for relation code on the annotation of C: the function raises. *)
Lemma list_code_raises :
  build_conversation_graph plain_str canonical_order
    list_code_annotations chain_corpus = Raised TypeError.
Proof. vm_compute; reflexivity. Qed.

(** An annotation file that misses the corpus: a graph is built, without
    nodes, and the script reports a failure. *)
Lemma missing_annotations_fail_the_script write_graphml :
  main plain_str canonical_order write_graphml missing_annotations chain_corpus
  = inr ConstructionFailed.
Proof. vm_compute; reflexivity. Qed.

Lemma annotation_loader_accounts_for_every_item_no_id :
  load_annotations plain_str
    (Decoded (JList [ no_id_item; annotate "C" "a" ])) = Some no_id_loaded
  ∧ Forall (λ item, is_dict item = true) [ no_id_item; annotate "C" "a" ]
  ∧ valid_annotations no_id_loaded
    = omap (kept plain_str) [ no_id_item; annotate "C" "a" ]
  ∧ skipped_items no_id_loaded
    = filter (λ item, ¬ is_Some (kept plain_str item))
             [ no_id_item; annotate "C" "a" ]
  ∧ annotation_ids no_id_loaded
    = list_to_set (omap (kept plain_str) [ no_id_item; annotate "C" "a" ]).*1
  ∧ length (valid_annotations no_id_loaded)
    + length (skipped_items no_id_loaded)
    = length [ no_id_item; annotate "C" "a" ]
  ∧ ∀ k d, (k, d) ∈ valid_annotations no_id_loaded →
      d !! "id" = Some (JStr k)
      ∧ ∃ d0, JDict d0 ∈ [ no_id_item; annotate "C" "a" ]
              ∧ k = py_str plain_str (get d0 "id")
              ∧ ∀ field, field ≠ "id" → d !! field = d0 !! field.
Proof.
  assert (load_annotations plain_str
            (Decoded (JList [ no_id_item; annotate "C" "a" ]))
          = Some no_id_loaded) as Hload by (vm_compute; reflexivity).
  split; [exact Hload|].
  exact (annotation_loader_accounts_for_every_item plain_str _ _ Hload).
Defined.

Lemma utterance_loader_keeps_last_seven :
  load_utterances plain_str seven_corpus = Some {["7" := second_seven]}
  ∧ ({["7" := second_seven]} : gmap string (gmap string json)) !! "7"
    = last_kept plain_str
        [ obj [("id", JInt 7); ("text", JStr "first")]; JDict second_seven ]
        "7".
Proof.
  assert (load_utterances plain_str seven_corpus
          = Some {["7" := second_seven]}) as Hload
    by (vm_compute; reflexivity).
  split; [exact Hload|].
  exact (utterance_loader_keeps_last plain_str _ _ "7" Hload).
Defined.

Lemma non_mapping_utterance_aborts_string :
  (∃ item, item ∈ string_item_utterances ∧ is_dict item = false)
  ∧ build_conversation_graph plain_str canonical_order chain_annotations
      (Decoded (JList string_item_utterances)) = ReturnedNone.
Proof.
  assert (∃ item, item ∈ string_item_utterances ∧ is_dict item = false)
    as Hbad.
  { exists (JStr "A"). split; [by left|reflexivity]. }
  split; [exact Hbad|].
  exact (non_mapping_utterance_aborts plain_str canonical_order
           chain_annotations string_item_utterances Hbad).
Defined.

Lemma disjoint_annotations_give_the_empty_graph_missing :
  load_annotations plain_str missing_annotations = Some missing_loaded
  ∧ annotation_ids missing_loaded ≠ ∅
  ∧ load_utterances plain_str chain_corpus = Some chain_records
  ∧ chain_records ≠ ∅
  ∧ annotation_ids missing_loaded ∩ dom chain_records = ∅
  ∧ build_conversation_graph plain_str canonical_order
      missing_annotations chain_corpus
    = Returned empty_graph (mkCounters 0 0 0 0).
Proof.
  assert (load_annotations plain_str missing_annotations
          = Some missing_loaded) as Hst by (vm_compute; reflexivity).
  assert (annotation_ids missing_loaded ≠ ∅) as Hids
    by (vm_compute; discriminate).
  assert (load_utterances plain_str chain_corpus = Some chain_records)
    as Hall by (vm_compute; reflexivity).
  assert (chain_records ≠ ∅) as Hne by (vm_compute; discriminate).
  assert (annotation_ids missing_loaded ∩ dom chain_records = ∅) as Hdisj
    by (vm_compute; reflexivity).
  split; [exact Hst|]. split; [exact Hids|]. split; [exact Hall|].
  split; [exact Hne|]. split; [exact Hdisj|].
  exact (disjoint_annotations_give_the_empty_graph plain_str canonical_order
           _ _ _ _ Hst Hids Hall Hne Hdisj).
Defined.

Lemma mapped_annotation_labels_its_edge_chain :
  build_conversation_graph plain_str canonical_order
    chain_annotations chain_corpus
  = Returned chain_graph (mkCounters 0 1 1 0)
  ∧ load_annotations plain_str chain_annotations = Some chain_loaded
  ∧ load_utterances plain_str chain_corpus = Some chain_records
  ∧ last_annotation (valid_annotations chain_loaded) "C"
    = Some chain_annotation_record
  ∧ relation_map_get (code chain_annotation_record) = inr (Some "attack")
  ∧ replies_to plain_str chain_records "C" "B"
  ∧ "B" ∈ dom chain_records
  ∧ edges chain_graph !! ("B", "C")
    = Some (relation_attr (if decide ("B" = "") then "reply" else "attack")).
Proof.
  assert (build_conversation_graph plain_str canonical_order
            chain_annotations chain_corpus
          = Returned chain_graph (mkCounters 0 1 1 0)) as Hrun
    by (vm_compute; reflexivity).
  assert (load_annotations plain_str chain_annotations = Some chain_loaded)
    as Hst by (vm_compute; reflexivity).
  assert (load_utterances plain_str chain_corpus = Some chain_records)
    as Hall by (vm_compute; reflexivity).
  assert (last_annotation (valid_annotations chain_loaded) "C"
          = Some chain_annotation_record) as Hlast
    by (vm_compute; reflexivity).
  assert (relation_map_get (code chain_annotation_record)
          = inr (Some "attack")) as Hm by (vm_compute; reflexivity).
  assert (replies_to plain_str chain_records "C" "B") as Hp
    by (eexists; split; vm_compute; reflexivity).
  assert ("B" ∈ dom chain_records) as Hdom
    by (apply elem_of_dom; eexists; vm_compute; reflexivity).
  split; [exact Hrun|]. split; [exact Hst|]. split; [exact Hall|].
  split; [exact Hlast|]. split; [exact Hm|]. split; [exact Hp|].
  split; [exact Hdom|].
  exact (mapped_annotation_labels_its_edge plain_str canonical_order
           _ _ _ _ _ _ _ _ _ _ Hrun Hst Hall Hlast Hm Hp Hdom).
Defined.

Lemma nodes_carry_six_attributes_chain :
  build_conversation_graph plain_str canonical_order
    chain_annotations chain_corpus
  = Returned chain_graph (mkCounters 0 1 1 0)
  ∧ nodes chain_graph !! "B" = Some bare_node
  ∧ dom bare_node = node_keys
  ∧ (∀ key v, bare_node !! key = Some v → v ≠ JNull)
  ∧ (∀ key v, key ∈ ["text"; "user"; "root"; "delta"] →
              bare_node !! key = Some v → is_str v = true)
  ∧ ∃ all d,
      load_utterances plain_str chain_corpus = Some all
      ∧ all !! "B" = Some d
      ∧ bare_node !! "timestamp"
        = Some (if is_none (get d "timestamp") then JStr ""
                else get d "timestamp")
      ∧ bare_node !! "score"
        = Some (if is_none (get d "score") then JInt 0 else get d "score").
Proof.
  assert (build_conversation_graph plain_str canonical_order
            chain_annotations chain_corpus
          = Returned chain_graph (mkCounters 0 1 1 0)) as Hrun
    by (vm_compute; reflexivity).
  assert (nodes chain_graph !! "B" = Some bare_node) as Hn
    by (vm_compute; reflexivity).
  split; [exact Hrun|]. split; [exact Hn|].
  exact (nodes_carry_six_attributes plain_str canonical_order
           _ _ _ _ _ _ Hrun Hn).
Defined.

Lemma edge_counter_is_number_of_edges_chain :
  build_conversation_graph plain_str canonical_order
    both_annotations chain_corpus
  = Returned whole_chain_graph (mkCounters 0 2 2 0)
  ∧ edges_added (mkCounters 0 2 2 0) = size (edges whole_chain_graph).
Proof.
  assert (build_conversation_graph plain_str canonical_order
            both_annotations chain_corpus
          = Returned whole_chain_graph (mkCounters 0 2 2 0)) as Hrun
    by (vm_compute; reflexivity).
  split; [exact Hrun|].
  exact (edge_counter_is_number_of_edges plain_str canonical_order
           _ _ _ _ Hrun).
Defined.

Lemma annotations_outside_corpus_change_nothing_chain :
  keyed chain_records
  ∧ assemble plain_str canonical_order
      (valid_annotations missing_loaded ++ valid_annotations chain_loaded)
      {["Z"; "C"]} chain_records
    = assemble plain_str canonical_order
        (filter (λ it, it.1 ∈ dom chain_records)
                (valid_annotations missing_loaded
                 ++ valid_annotations chain_loaded))
        ({["Z"; "C"]} ∩ dom chain_records) chain_records.
Proof.
  split; [exact chain_records_keyed|].
  exact (annotations_outside_corpus_change_nothing plain_str canonical_order
           _ _ _ chain_records_keyed).
Defined.

Lemma binding_counters_sort_the_labelled_annotations_chain :
  build_conversation_graph plain_str canonical_order
    both_annotations chain_corpus
  = Returned whole_chain_graph (mkCounters 0 2 2 0)
  ∧ load_annotations plain_str both_annotations = Some both_loaded
  ∧ load_utterances plain_str chain_corpus = Some chain_records
  ∧ asn_added (mkCounters 0 2 2 0)
    = length (filter
                (λ ch, stores_relation_word (valid_annotations both_loaded) ch
                       && finds_parent plain_str chain_records ch = true)
                (elements (annotation_ids both_loaded ∩ dom chain_records)))
  ∧ asn_missing_edge (mkCounters 0 2 2 0)
    = length (filter
                (λ ch, stores_relation_word (valid_annotations both_loaded) ch
                       && negb (finds_parent plain_str chain_records ch)
                       = true)
                (elements (annotation_ids both_loaded ∩ dom chain_records))).
Proof.
  assert (build_conversation_graph plain_str canonical_order
            both_annotations chain_corpus
          = Returned whole_chain_graph (mkCounters 0 2 2 0)) as Hrun
    by (vm_compute; reflexivity).
  assert (load_annotations plain_str both_annotations = Some both_loaded)
    as Hst by (vm_compute; reflexivity).
  assert (load_utterances plain_str chain_corpus = Some chain_records)
    as Hall by (vm_compute; reflexivity).
  split; [exact Hrun|]. split; [exact Hst|]. split; [exact Hall|].
  exact (binding_counters_sort_the_labelled_annotations plain_str
           canonical_order _ _ _ _ _ _ Hrun Hst Hall).
Defined.

Lemma more_annotations_more_graph_chain :
  build_conversation_graph plain_str canonical_order
    chain_annotations chain_corpus
  = Returned chain_graph (mkCounters 0 1 1 0)
  ∧ build_conversation_graph plain_str canonical_order
      both_annotations chain_corpus
    = Returned whole_chain_graph (mkCounters 0 2 2 0)
  ∧ load_annotations plain_str chain_annotations = Some chain_loaded
  ∧ load_annotations plain_str both_annotations = Some both_loaded
  ∧ annotation_ids chain_loaded ⊆ annotation_ids both_loaded
  ∧ dom (nodes chain_graph) ⊆ dom (nodes whole_chain_graph)
  ∧ dom (edges chain_graph) ⊆ dom (edges whole_chain_graph).
Proof.
  assert (build_conversation_graph plain_str canonical_order
            chain_annotations chain_corpus
          = Returned chain_graph (mkCounters 0 1 1 0)) as Hrun1
    by (vm_compute; reflexivity).
  assert (build_conversation_graph plain_str canonical_order
            both_annotations chain_corpus
          = Returned whole_chain_graph (mkCounters 0 2 2 0)) as Hrun2
    by (vm_compute; reflexivity).
  assert (load_annotations plain_str chain_annotations = Some chain_loaded)
    as Hst1 by (vm_compute; reflexivity).
  assert (load_annotations plain_str both_annotations = Some both_loaded)
    as Hst2 by (vm_compute; reflexivity).
  assert (annotation_ids chain_loaded ⊆ annotation_ids both_loaded) as Hsub
    by (simpl; set_solver).
  split; [exact Hrun1|]. split; [exact Hrun2|]. split; [exact Hst1|].
  split; [exact Hst2|]. split; [exact Hsub|].
  exact (more_annotations_more_graph plain_str canonical_order canonical_order
           _ _ _ _ _ _ _ _ _ Hrun1 Hrun2 Hst1 Hst2 Hsub).
Defined.

Lemma corpus_alone_decides_attributes_and_edges_chain :
  build_conversation_graph plain_str canonical_order
    chain_annotations chain_corpus
  = Returned chain_graph (mkCounters 0 1 1 0)
  ∧ build_conversation_graph plain_str canonical_order
      both_annotations chain_corpus
    = Returned whole_chain_graph (mkCounters 0 2 2 0)
  ∧ (∀ n, n ∈ dom (nodes chain_graph) → n ∈ dom (nodes whole_chain_graph) →
          nodes chain_graph !! n = nodes whole_chain_graph !! n)
  ∧ (∀ p ch, p ∈ dom (nodes chain_graph) → p ∈ dom (nodes whole_chain_graph) →
             ch ∈ dom (nodes chain_graph) →
             ch ∈ dom (nodes whole_chain_graph) →
             is_Some (edges chain_graph !! (p, ch))
             ↔ is_Some (edges whole_chain_graph !! (p, ch))).
Proof.
  assert (build_conversation_graph plain_str canonical_order
            chain_annotations chain_corpus
          = Returned chain_graph (mkCounters 0 1 1 0)) as Hrun1
    by (vm_compute; reflexivity).
  assert (build_conversation_graph plain_str canonical_order
            both_annotations chain_corpus
          = Returned whole_chain_graph (mkCounters 0 2 2 0)) as Hrun2
    by (vm_compute; reflexivity).
  split; [exact Hrun1|]. split; [exact Hrun2|].
  exact (corpus_alone_decides_attributes_and_edges plain_str
           canonical_order canonical_order _ _ _ _ _ _ _ Hrun1 Hrun2).
Defined.
